(** * ZipDrop: the upload-intake orchestration of [src/App.tsx]

    A shallow embedding of the front end of ZipDrop (one React component
    tree written in TypeScript) and the proofs of the properties its
    specification states about it.

    Conventions.
    - A JavaScript string is the list of its UTF-16 code units.
    - A JavaScript number that the program uses as an integer (a length,
      a [Date.now()] reading, a byte count) is a [Z] or a [nat].
    - React state ([useState]) and refs ([useRef]) are fields of one record;
      a listener or a promise continuation is a function from record to
      record; the event loop is a step function over an event type. *)

From Stdlib Require Import ZArith NArith Lia String Ascii DecimalString.
From stdpp Require Import base decidable option list gmap.

Local Open Scope Z_scope.

(** ** JavaScript strings *)

Abbreviation jsstring := (list N).

(** The code units of a literal (every literal of the program is ASCII). *)
Definition u16 (s : string) : jsstring :=
  N_of_ascii <$> list_ascii_of_string s.

(** Truthiness of a string: only the empty string is falsy. *)
Definition truthy (s : jsstring) : bool :=
  match s with
  | [] => false
  | _ :: _ => true
  end.

(** [s.split(sep)] for a separator of one code unit. *)
Fixpoint split (sep : N) (s : jsstring) : list jsstring :=
  match s with
  | [] => [[]]
  | c :: s' =>
      if N.eqb c sep then [] :: split sep s'
      else match split sep s' with
           | [] => [[c]]
           | part :: parts => (c :: part) :: parts
           end
  end.

(** [parts.pop()]: the last element, [undefined] ([None]) on an empty array. *)
Definition pop (parts : list jsstring) : option jsstring := last parts.

Definition dot : N := 46.
Definition slash : N := 47.

(** [Number.prototype.toString] on an integer. *)
Definition toString (n : Z) : jsstring :=
  u16 (NilZero.string_of_int (Z.to_int n)).

(** What the program takes from the JavaScript engine without the repository
    saying what it computes: the Unicode case mapping and the floating-point
    arithmetic and number formatting of [formatBytes]. *)
Class Engine := {
  (** [s.toLowerCase()] *)
  toLowerCase : jsstring -> jsstring;
  (** [Math.floor(Math.log(x) / Math.log(k))] *)
  logFloor : Z -> Z -> Z;
  (** the text of [parseFloat((x / Math.pow(k, i)).toFixed(1))] *)
  toFixed1 : Z -> Z -> Z -> jsstring
}.

(** ** Constants *)

Definition MAX_FILES : nat := 50.
Definition DEBOUNCE_MS : Z := 300.
Definition MAX_RECENT_UPLOADS : nat := 10.

Definition ALLOWED_EXTENSIONS : gset jsstring :=
  list_to_set (u16 <$> [
    (* Images *)
    "jpg"; "jpeg"; "png"; "gif"; "bmp"; "tiff"; "tif"; "webp"; "heic"; "heif";
    "svg"; "ico"; "raw"; "cr2"; "nef"; "arw";
    (* Documents *)
    "pdf"; "doc"; "docx"; "xls"; "xlsx"; "ppt"; "pptx"; "txt"; "rtf"; "csv";
    "md"; "markdown"; "pages"; "numbers"; "key";
    (* Archives *)
    "zip"; "tar"; "gz"; "7z"; "rar"; "bz2"; "xz"; "tgz";
    (* Video *)
    "mov"; "mp4"; "avi"; "mkv"; "webm"; "m4v"; "wmv"; "flv"; "3gp";
    (* Audio *)
    "mp3"; "wav"; "aac"; "flac"; "m4a"; "ogg"; "wma"; "aiff";
    (* Code & Data *)
    "json"; "xml"; "html"; "css"; "js"; "ts"; "jsx"; "tsx"; "py"; "rs"; "go";
    "swift"; "java"; "c"; "cpp"; "h"; "rb"; "php"; "sh"; "bash"; "zsh";
    "yaml"; "yml"; "toml"; "ini"; "sql"; "graphql";
    (* macOS/Apps *)
    "dmg"; "pkg"; "app"; "ipa";
    (* Fonts *)
    "ttf"; "otf"; "woff"; "woff2"; "eot";
    (* Other *)
    "log"; "env"; "gitignore"; "dockerfile"
  ]%string).

(** [ALLOWED_EXTENSIONS.has(ext)] *)
Definition has (ext : jsstring) : bool := bool_decide (ext ∈ ALLOWED_EXTENSIONS).

(** ** Types *)

Inductive AppState := Idle | DragOver | Processing | Success | Error.

Module UploadItem.
Record t := {
  id : jsstring;
  name : jsstring;
  size : jsstring;
  url : jsstring;
  localPath : option jsstring;
  r2Key : option jsstring;
  isDemo : bool;
  timestamp : Z
}.
End UploadItem.
Abbreviation UploadItem := UploadItem.t.

Module DropResult.
Record t := {
  url : jsstring;
  local_path : option jsstring;
  r2_key : option jsstring;
  original_size : Z;
  processed_size : Z;
  file_type : jsstring;
  is_demo : bool
}.
End DropResult.
Abbreviation DropResult := DropResult.t.

(** [x || undefined] on [string | null]: [null] and the empty string give
    [undefined]. *)
Definition orUndefined (x : option jsstring) : option jsstring :=
  match x with
  | Some s => if truthy s then Some s else None
  | None => None
  end.

(** Truthiness of [string | undefined]. *)
Definition truthyOpt (x : option jsstring) : bool :=
  match x with
  | Some s => truthy s
  | None => false
  end.

(** ** Utility functions *)

Definition sizes : list jsstring := u16 <$> ["B"; "KB"; "MB"; "GB"]%string.

(** [sizes[i]] inside a string concatenation: out of range it is [undefined],
    which concatenates as the text "undefined". *)
Definition sizeUnit (i : Z) : jsstring :=
  if i <? 0 then u16 "undefined"
  else default (u16 "undefined") (sizes !! Z.to_nat i).

Definition formatBytes `{Engine} (bytes : Z) : jsstring :=
  if bytes =? 0 then u16 "0 B"
  else
    let k := 1024 in
    let i := logFloor bytes k in
    toFixed1 bytes k i ++ u16 " " ++ sizeUnit i.

Definition getExtension `{Engine} (path : jsstring) : jsstring :=
  let parts := split dot path in
  if (1 <? length parts)%nat then toLowerCase (default [] (pop parts)) else [].

Definition getFileName (path : jsstring) : jsstring :=
  let name := default [] (pop (split slash path)) in
  if truthy name then name else path.

(** The outcome of [validateFiles]: [{ valid, error? }]. *)
Record Validation := { valid : bool; error : option jsstring }.

(** The three ways a batch is refused, as the specification names them, and
    the message the program shows for each. *)
Inductive ValidationError :=
| EmptyBatch
| TooManyFiles (max : nat)
| UnsupportedType (extension fileName : jsstring).

Definition errorMessage (e : ValidationError) : jsstring :=
  match e with
  | EmptyBatch => u16 "No files provided"
  | TooManyFiles max =>
      u16 "Too many files. Maximum is " ++ toString (Z.of_nat max) ++ u16 "."
  | UnsupportedType ext fileName =>
      u16 "Unsupported file type: ." ++ ext ++ u16 " (" ++ fileName ++ u16 ")"
  end.

Definition failWith (e : ValidationError) : Validation :=
  {| valid := false; error := Some (errorMessage e) |}.

Definition accepted : Validation := {| valid := true; error := None |}.

(** The [for ... of] loop of [validateFiles]: it returns at the first path
    whose extension is non-empty and not allowed. *)
Fixpoint validateLoop `{Engine} (paths : list jsstring) : Validation :=
  match paths with
  | [] => accepted
  | path :: rest =>
      let ext := getExtension path in
      if truthy ext && negb (has ext)
      then failWith (UnsupportedType ext (getFileName path))
      else validateLoop rest
  end.

Definition validateFiles `{Engine} (paths : list jsstring) : Validation :=
  if (length paths =? 0)%nat then failWith EmptyBatch
  else if (MAX_FILES <? length paths)%nat then failWith (TooManyFiles MAX_FILES)
  else validateLoop paths.

(** [name.replace(/\.[^.]+$/, "")]: the pattern matches a dot followed, up to
    the end of the string, by one or more code units none of which is a dot;
    the leftmost match is removed. *)
Fixpoint stripExtension (name : jsstring) : jsstring :=
  match name with
  | [] => []
  | c :: rest =>
      if N.eqb c dot && truthy rest && bool_decide (dot ∉ rest) then []
      else c :: stripExtension rest
  end.

(** ** The main component: state and environment *)

(** What [localStorage.getItem("zipdrop_uploads")] finds, by what
    [JSON.parse] makes of it, for the slots the component can be mounted on.
    The only writer of the slot in the program is [JSON.stringify(uploads)],
    so a slot the program left is a [Json].  A text that parses to anything
    but a list of records is no [Saved]: the component cannot be mounted on
    it; it is a [Slot], below, and [launch] says what becomes of it. *)
Inductive Saved :=
| NoItem                          (* [getItem] returns [null] *)
| BadJson (text : jsstring)       (* a text on which [JSON.parse] throws; the
                                     empty text is falsy and is not parsed *)
| Json (items : list UploadItem). (* [JSON.stringify] of a list of records *)

(** The callbacks the program hands to [setTimeout]. *)
Inductive Callback :=
| ResetStatus    (* setState("idle"); setStatusText("") *)
| ResetSession   (* the same, then setCurrentFileName("") *)
| HideWindow.    (* getCurrentWindow().hide() *)

Record Timer := { callback : Callback; delay : Z }.

(** The remote commands of the main component that the claims concern. *)
Inductive Command :=
| process_and_upload (paths : list jsstring)
| delete_from_r2 (key : jsstring).

Record App := {
  (* useState *)
  state : AppState;
  statusText : jsstring;
  uploads : list UploadItem;
  currentFileName : jsstring;
  (* useRef *)
  lastDropTime : Z;
  isProcessing : bool;
  (* the world around the component *)
  storage : Saved;                  (* the slot "zipdrop_uploads" *)
  awaiting : list (list jsstring);  (* [await invoke("process_and_upload")]
                                       not yet settled, each with the
                                       [paths] its continuation closes over *)
  detached : list jsstring;         (* [invoke("delete_from_r2")] not yet
                                       settled; nothing waits for them *)
  invoked : list Command;           (* every remote command issued, oldest first *)
  timers : list Timer;              (* scheduled and not yet fired *)
  hideRequests : nat                (* calls of [getCurrentWindow().hide()] *)
}.

Definition setState (v : AppState) (a : App) : App :=
  {| state := v; statusText := statusText a; uploads := uploads a;
     currentFileName := currentFileName a; lastDropTime := lastDropTime a;
     isProcessing := isProcessing a; storage := storage a;
     awaiting := awaiting a; detached := detached a; invoked := invoked a;
     timers := timers a; hideRequests := hideRequests a |}.

Definition setStatusText (v : jsstring) (a : App) : App :=
  {| state := state a; statusText := v; uploads := uploads a;
     currentFileName := currentFileName a; lastDropTime := lastDropTime a;
     isProcessing := isProcessing a; storage := storage a;
     awaiting := awaiting a; detached := detached a; invoked := invoked a;
     timers := timers a; hideRequests := hideRequests a |}.

(** [setUploads(f)], together with the effect that depends on [uploads] and
    rewrites the slot: [localStorage.setItem(..., JSON.stringify(uploads))]. *)
Definition setUploads (f : list UploadItem -> list UploadItem) (a : App) : App :=
  let updated := f (uploads a) in
  {| state := state a; statusText := statusText a; uploads := updated;
     currentFileName := currentFileName a; lastDropTime := lastDropTime a;
     isProcessing := isProcessing a; storage := Json updated;
     awaiting := awaiting a; detached := detached a; invoked := invoked a;
     timers := timers a; hideRequests := hideRequests a |}.

Definition setCurrentFileName (v : jsstring) (a : App) : App :=
  {| state := state a; statusText := statusText a; uploads := uploads a;
     currentFileName := v; lastDropTime := lastDropTime a;
     isProcessing := isProcessing a; storage := storage a;
     awaiting := awaiting a; detached := detached a; invoked := invoked a;
     timers := timers a; hideRequests := hideRequests a |}.

Definition set_lastDropTime (v : Z) (a : App) : App :=
  {| state := state a; statusText := statusText a; uploads := uploads a;
     currentFileName := currentFileName a; lastDropTime := v;
     isProcessing := isProcessing a; storage := storage a;
     awaiting := awaiting a; detached := detached a; invoked := invoked a;
     timers := timers a; hideRequests := hideRequests a |}.

Definition set_isProcessing (v : bool) (a : App) : App :=
  {| state := state a; statusText := statusText a; uploads := uploads a;
     currentFileName := currentFileName a; lastDropTime := lastDropTime a;
     isProcessing := v; storage := storage a;
     awaiting := awaiting a; detached := detached a; invoked := invoked a;
     timers := timers a; hideRequests := hideRequests a |}.

(** The world's side of the calls the component makes. *)
Definition set_world (aw : list (list jsstring)) (de : list jsstring)
    (inv : list Command) (ti : list Timer) (hi : nat) (a : App) : App :=
  {| state := state a; statusText := statusText a; uploads := uploads a;
     currentFileName := currentFileName a; lastDropTime := lastDropTime a;
     isProcessing := isProcessing a; storage := storage a;
     awaiting := aw; detached := de; invoked := inv;
     timers := ti; hideRequests := hi |}.

(** [setTimeout(cb, ms)] *)
Definition setTimeout (cb : Callback) (ms : Z) (a : App) : App :=
  set_world (awaiting a) (detached a) (invoked a)
            (timers a ++ [{| callback := cb; delay := ms |}]) (hideRequests a) a.

(** [getCurrentWindow().hide()] *)
Definition hide (a : App) : App :=
  set_world (awaiting a) (detached a) (invoked a) (timers a)
            (S (hideRequests a)) a.

(** [await invoke("process_and_upload", { paths })]: the command goes out and
    the rest of [processFiles] waits for it to settle. *)
Definition invoke_process_and_upload (paths : list jsstring) (a : App) : App :=
  set_world (awaiting a ++ [paths]) (detached a)
            (invoked a ++ [process_and_upload paths]) (timers a)
            (hideRequests a) a.

(** [invoke("delete_from_r2", { key })] with no [await] and no handler. *)
Definition invoke_delete_from_r2 (key : jsstring) (a : App) : App :=
  set_world (awaiting a) (detached a ++ [key])
            (invoked a ++ [delete_from_r2 key]) (timers a)
            (hideRequests a) a.

(** ** The main component: handlers *)

(** The mount effects: the slot is read and, when it parses, becomes the
    history; the effect that depends on [uploads] then writes the history
    back.  Everything else starts from its [useState]/[useRef] initial value. *)
Definition loadUploads (saved : Saved) : list UploadItem :=
  match saved with
  | NoItem => []
  | BadJson _ => []
  | Json items => items
  end.

Definition mount (saved : Saved) : App :=
  let loaded := loadUploads saved in
  {| state := Idle; statusText := []; uploads := loaded;
     currentFileName := []; lastDropTime := 0; isProcessing := false;
     storage := Json loaded; awaiting := []; detached := []; invoked := [];
     timers := []; hideRequests := 0 |}.

(** The updater handed to [setUploads] on success:
    [[newUpload, ...prev].slice(0, MAX_RECENT_UPLOADS)]. *)
Definition prepend (newUpload : UploadItem) (prev : list UploadItem)
    : list UploadItem :=
  take MAX_RECENT_UPLOADS (newUpload :: prev).

(** The status line while processing:
    [`Processing ${paths.length} file${paths.length > 1 ? "s" : ""}...`]. *)
Definition processingText (paths : list jsstring) : jsstring :=
  u16 "Processing " ++ toString (Z.of_nat (length paths)) ++ u16 " file"
  ++ (if (1 <? length paths)%nat then u16 "s" else []) ++ u16 "...".

(** [processFiles(paths)] up to its [await]; [now] is what [Date.now()]
    returns. *)
Definition processFiles `{Engine} (paths : list jsstring) (now : Z) (a : App)
    : App :=
  (* Debounce *)
  if now - lastDropTime a <? DEBOUNCE_MS then a
  else
    let a := set_lastDropTime now a in
    (* Don't process if already processing *)
    if isProcessing a then a
    else if (length paths =? 0)%nat then a
    else
      (* Validate *)
      let validation := validateFiles paths in
      if negb (valid validation) then
        let a := setState Error a in
        let a := setStatusText (default [] (error validation)) a in
        setTimeout ResetStatus 3000 a
      else
        (* Start processing *)
        let a := set_isProcessing true a in
        let fileNames := getFileName <$> paths in
        let a := setCurrentFileName (default [] (head fileNames)) a in
        let a := setState Processing a in
        let a := setStatusText (processingText paths) a in
        invoke_process_and_upload paths a.

(** Build display name *)
Definition displayName (paths : list jsstring) (result : DropResult)
    : jsstring :=
  let fileNames := getFileName <$> paths in
  if (1 <? length paths)%nat then u16 "archive.zip"
  else
    let baseName := stripExtension (default [] (head fileNames)) in
    baseName ++ u16 "." ++ DropResult.file_type result.

(** Create upload item; [idNow] and [tsNow] are its two [Date.now()]
    readings. *)
Definition newUpload `{Engine} (paths : list jsstring) (result : DropResult)
    (idNow tsNow : Z) : UploadItem :=
  {| UploadItem.id := toString idNow;
     UploadItem.name := displayName paths result;
     UploadItem.size := formatBytes (DropResult.processed_size result);
     UploadItem.url := DropResult.url result;
     UploadItem.localPath := orUndefined (DropResult.local_path result);
     UploadItem.r2Key := orUndefined (DropResult.r2_key result);
     UploadItem.isDemo := DropResult.is_demo result;
     UploadItem.timestamp := tsNow |}.

(** The rest of [processFiles] when the awaited command resolves: the [try]
    body after the [await], then [finally]. *)
Definition uploadResolved `{Engine} (paths : list jsstring)
    (result : DropResult) (idNow tsNow : Z) (a : App) : App :=
  let a := setUploads (prepend (newUpload paths result idNow tsNow)) a in
  let a := setState Success a in
  let a := setStatusText (if DropResult.is_demo result
                          then u16 "Saved to Downloads!"
                          else u16 "Copied to clipboard!") a in
  let a := setTimeout ResetSession 2000 a in
  let a := setTimeout HideWindow 10000 a in
  set_isProcessing false a.

(** The rest of [processFiles] when the awaited command rejects: [catch],
    then [finally]; [reason] is [String(error)]. *)
Definition uploadRejected (reason : jsstring) (a : App) : App :=
  let a := setState Error a in
  let a := setStatusText reason a in
  let a := setTimeout ResetSession 3000 a in
  set_isProcessing false a.

(** The three Tauri listeners. *)
Definition dropListener `{Engine} (paths : list jsstring) (now : Z) (a : App)
    : App :=
  if (0 <? length paths)%nat then processFiles paths now a else a.

Definition dragOverListener (a : App) : App :=
  if negb (isProcessing a) then setState DragOver a else a.

Definition dragLeaveListener (a : App) : App :=
  if negb (isProcessing a) then setState Idle a else a.

Definition handleKeyDown (key : jsstring) (a : App) : App :=
  if bool_decide (key = u16 "Escape") then hide a else a.

Definition deleteUpload (shiftKey : bool) (item : UploadItem) (a : App) : App :=
  (* Remove from UI immediately *)
  let a := setUploads (filter (λ u, UploadItem.id u ≠ UploadItem.id item)) a in
  (* If shift+click on R2 upload, fire-and-forget delete from cloud *)
  if shiftKey && truthyOpt (UploadItem.r2Key item) && negb (UploadItem.isDemo item)
  then invoke_delete_from_r2 (default [] (UploadItem.r2Key item)) a
  else a.

(** The "Clear" button: [setUploads([])]. *)
Definition clearUploads (a : App) : App := setUploads (λ _, []) a.

Definition runCallback (cb : Callback) (a : App) : App :=
  match cb with
  | ResetStatus => setStatusText [] (setState Idle a)
  | ResetSession => setCurrentFileName [] (setStatusText [] (setState Idle a))
  | HideWindow => hide a
  end.

(** ** The event loop *)

(** Everything that can wake the component.  One event is one task of the
    single-threaded loop: its handler runs to completion, or to its [await],
    before the next event is looked at. *)
Inductive Event :=
| DragDrop (paths : list jsstring) (now : Z)   (* tauri://drag-drop *)
| DragOverEvent                                (* tauri://drag-over *)
| DragLeaveEvent                               (* tauri://drag-leave *)
| UploadResolves (i : nat) (result : DropResult) (idNow tsNow : Z)
| UploadRejects (i : nat) (reason : jsstring)  (* the i-th awaited command settles *)
| DeleteSettles (i : nat) (ok : bool)          (* the i-th detached command settles *)
| TimerFires (i : nat)                         (* the i-th scheduled timer is due *)
| KeyDown (key : jsstring)
| DeleteClick (shiftKey : bool) (item : UploadItem)
| ClearClick
| Relaunch.   (* the application is quit and started again: only the slot survives *)

(** An event that cannot happen in a state (a command that is not pending
    settles, a timer that is not scheduled fires) leaves the state as it is. *)
Definition step `{Engine} (a : App) (e : Event) : App :=
  match e with
  | DragDrop paths now => dropListener paths now a
  | DragOverEvent => dragOverListener a
  | DragLeaveEvent => dragLeaveListener a
  | UploadResolves i result idNow tsNow =>
      match awaiting a !! i with
      | Some paths =>
          uploadResolved paths result idNow tsNow
            (set_world (delete i (awaiting a)) (detached a) (invoked a)
                       (timers a) (hideRequests a) a)
      | None => a
      end
  | UploadRejects i reason =>
      match awaiting a !! i with
      | Some _ =>
          uploadRejected reason
            (set_world (delete i (awaiting a)) (detached a) (invoked a)
                       (timers a) (hideRequests a) a)
      | None => a
      end
  | DeleteSettles i _ =>
      set_world (awaiting a) (delete i (detached a)) (invoked a) (timers a)
                (hideRequests a) a
  | TimerFires i =>
      match timers a !! i with
      | Some t =>
          runCallback (callback t)
            (set_world (awaiting a) (detached a) (invoked a)
                       (delete i (timers a)) (hideRequests a) a)
      | None => a
      end
  | KeyDown key => handleKeyDown key a
  | DeleteClick shiftKey item => deleteUpload shiftKey item a
  | ClearClick => clearUploads a
  | Relaunch => mount (storage a)
  end.

Definition run `{Engine} (a : App) (events : list Event) : App :=
  foldl step a events.

(** The application as first installed: the slot has never been written. *)
Definition firstLaunch : App := mount NoItem.

(** Any text the slot may hold at start-up.  [Unrenderable] is a text that
    [JSON.parse] accepts and on whose value the render throws: [null]
    (reading [uploads.length]); a number, a boolean, a non-empty string or an
    object whose [length] is not 0 ([uploads.map] is not a function); a list
    holding [null] (reading [item.id]).  The few other values that parse, the
    empty string, an object whose [length] is 0 and a list of values that
    lack the fields of a record, render without throwing; they are no
    [UploadItem] lists and are not covered. *)
Inductive Slot :=
| Renderable (saved : Saved)
| Unrenderable (text : jsstring).

(** What a start-up comes to: the component mounted, or its tree unmounted
    because a render threw, with what the slot then holds. *)
Inductive Launch :=
| Mounted (a : App)
| RenderThrows (slot : Saved).

(** Start-up.  The first render has the empty history.  The mount effects
    then run in order: the load effect hands whatever [JSON.parse] returns to
    [setUploads], unchecked; the save effect, still with the empty history
    of the first render, writes the empty list to the slot.  The render that
    follows reads [uploads.length], calls [uploads.map] and reads [item.id]:
    on a value that is not a list of records it throws, and with no error
    boundary React unmounts the tree. *)
Definition launch (slot : Slot) : Launch :=
  match slot with
  | Renderable saved => Mounted (mount saved)
  | Unrenderable _ => RenderThrows (Json [])
  end.

(** A persisted value that is not the encoding of a list of records. *)
Definition malformed (slot : Slot) : Prop :=
  match slot with
  | Renderable (BadJson _) | Unrenderable _ => True
  | Renderable NoItem | Renderable (Json _) => False
  end.

(** ** The settings panel *)

Module Settings.

Record R2Config := {
  access_key : jsstring;
  secret_key : jsstring;
  bucket_name : jsstring;
  account_id : jsstring;
  public_url_base : jsstring
}.

Inductive Command :=
| validate_r2_config (config : R2Config)
| set_r2_config (config : R2Config).

(** The five inputs of the form. *)
Inductive Field := AccountId | BucketName | AccessKey | SecretKey | PublicUrlBase.

(** The handler a pending command will resume. *)
Inductive Waiting := InValidate | InSave.

(** The two ways [handleSave] refuses, as the specification names them. *)
Inductive SaveError := MissingFields | NotValidated.

Definition saveMessage (e : SaveError) : jsstring :=
  match e with
  | MissingFields => u16 "All fields are required"
  | NotValidated => u16 "Please test your credentials first"
  end.

Record Panel := {
  (* useState *)
  accessKey : jsstring;
  secretKey : jsstring;
  bucketName : jsstring;
  accountId : jsstring;
  publicUrlBase : jsstring;
  saving : bool;
  validating : bool;
  error : jsstring;
  validated : bool;
  (* the world around the panel *)
  awaiting : list Waiting;   (* awaited commands not yet settled *)
  invoked : list Command;    (* every remote command issued, oldest first *)
  onSaveCalls : nat          (* calls of the [onSave] prop *)
}.

Definition setField (f : Field) (v : jsstring) (p : Panel) : Panel :=
  {| accessKey := if f is AccessKey then v else accessKey p;
     secretKey := if f is SecretKey then v else secretKey p;
     bucketName := if f is BucketName then v else bucketName p;
     accountId := if f is AccountId then v else accountId p;
     publicUrlBase := if f is PublicUrlBase then v else publicUrlBase p;
     saving := saving p; validating := validating p; error := error p;
     validated := validated p; awaiting := awaiting p;
     invoked := invoked p; onSaveCalls := onSaveCalls p |}.

Definition getField (f : Field) (p : Panel) : jsstring :=
  match f with
  | AccountId => accountId p
  | BucketName => bucketName p
  | AccessKey => accessKey p
  | SecretKey => secretKey p
  | PublicUrlBase => publicUrlBase p
  end.

Definition setSaving (v : bool) (p : Panel) : Panel :=
  {| accessKey := accessKey p; secretKey := secretKey p;
     bucketName := bucketName p; accountId := accountId p;
     publicUrlBase := publicUrlBase p;
     saving := v; validating := validating p; error := error p;
     validated := validated p; awaiting := awaiting p;
     invoked := invoked p; onSaveCalls := onSaveCalls p |}.

Definition setValidating (v : bool) (p : Panel) : Panel :=
  {| accessKey := accessKey p; secretKey := secretKey p;
     bucketName := bucketName p; accountId := accountId p;
     publicUrlBase := publicUrlBase p;
     saving := saving p; validating := v; error := error p;
     validated := validated p; awaiting := awaiting p;
     invoked := invoked p; onSaveCalls := onSaveCalls p |}.

Definition setError (v : jsstring) (p : Panel) : Panel :=
  {| accessKey := accessKey p; secretKey := secretKey p;
     bucketName := bucketName p; accountId := accountId p;
     publicUrlBase := publicUrlBase p;
     saving := saving p; validating := validating p; error := v;
     validated := validated p; awaiting := awaiting p;
     invoked := invoked p; onSaveCalls := onSaveCalls p |}.

Definition setValidated (v : bool) (p : Panel) : Panel :=
  {| accessKey := accessKey p; secretKey := secretKey p;
     bucketName := bucketName p; accountId := accountId p;
     publicUrlBase := publicUrlBase p;
     saving := saving p; validating := validating p; error := error p;
     validated := v; awaiting := awaiting p;
     invoked := invoked p; onSaveCalls := onSaveCalls p |}.

Definition set_world (aw : list Waiting) (inv : list Command) (n : nat)
    (p : Panel) : Panel :=
  {| accessKey := accessKey p; secretKey := secretKey p;
     bucketName := bucketName p; accountId := accountId p;
     publicUrlBase := publicUrlBase p;
     saving := saving p; validating := validating p; error := error p;
     validated := validated p; awaiting := aw;
     invoked := inv; onSaveCalls := n |}.

(** [await invoke(...)] from the handler [w]. *)
Definition invoke (w : Waiting) (c : Command) (p : Panel) : Panel :=
  set_world (awaiting p ++ [w]) (invoked p ++ [c]) (onSaveCalls p) p.

Definition onSave (p : Panel) : Panel :=
  set_world (awaiting p) (invoked p) (S (onSaveCalls p)) p.

(** The panel as [useState] initialises it. *)
Definition initial : Panel :=
  {| accessKey := []; secretKey := []; bucketName := []; accountId := [];
     publicUrlBase := []; saving := false; validating := false; error := [];
     validated := false; awaiting := []; invoked := []; onSaveCalls := 0 |}.

(** The dependency array of the reset effect. *)
Definition deps (p : Panel) : list jsstring :=
  [accessKey p; secretKey p; bucketName p; accountId p].

(** Reset validated state when credentials change *)
Definition resetEffect (p : Panel) : Panel :=
  setError [] (setValidated false p).

(** An [onChange] of the input [f]: the setter runs, the panel renders
    again, and the reset effect runs if one of its dependencies is no longer
    what it was at the previous render. *)
Definition change (f : Field) (v : jsstring) (p : Panel) : Panel :=
  let p' := setField f v p in
  if bool_decide (deps p' = deps p) then p' else resetEffect p'.

(** [handleValidate] up to its [await]. *)
Definition handleValidate (p : Panel) : Panel :=
  if negb (truthy (accessKey p)) || negb (truthy (secretKey p))
     || negb (truthy (bucketName p)) || negb (truthy (accountId p))
  then setError (u16 "Account ID, Bucket Name, Access Key, and Secret Key are required") p
  else
    let p := setValidating true p in
    let p := setError [] p in
    invoke InValidate
      (validate_r2_config
         {| access_key := accessKey p; secret_key := secretKey p;
            bucket_name := bucketName p; account_id := accountId p;
            public_url_base := if truthy (publicUrlBase p) then publicUrlBase p
                               else u16 "https://example.com" |}) p.

(** [handleSave] up to its [await]. *)
Definition handleSave (p : Panel) : Panel :=
  if negb (truthy (accessKey p)) || negb (truthy (secretKey p))
     || negb (truthy (bucketName p)) || negb (truthy (accountId p))
     || negb (truthy (publicUrlBase p))
  then setError (saveMessage MissingFields) p
  else if negb (validated p) then setError (saveMessage NotValidated) p
  else
    let p := setSaving true p in
    let p := setError [] p in
    invoke InSave
      (set_r2_config
         {| access_key := accessKey p; secret_key := secretKey p;
            bucket_name := bucketName p; account_id := accountId p;
            public_url_base := publicUrlBase p |}) p.

(** The rest of a handler when its command settles: [try] or [catch], then
    [finally]. *)
Definition resolved (w : Waiting) (p : Panel) : Panel :=
  match w with
  | InValidate => setValidating false (setValidated true p)
  | InSave => setSaving false (onSave p)
  end.

Definition rejected (w : Waiting) (reason : jsstring) (p : Panel) : Panel :=
  match w with
  | InValidate => setValidating false (setValidated false (setError reason p))
  | InSave => setSaving false (setError reason p)
  end.

Inductive Event :=
| Change (f : Field) (v : jsstring)
| ClickTest
| ClickSave
| Resolves (i : nat)
| Rejects (i : nat) (reason : jsstring).

Definition step (p : Panel) (e : Event) : Panel :=
  match e with
  | Change f v => change f v p
  | ClickTest => handleValidate p
  | ClickSave => handleSave p
  | Resolves i =>
      match awaiting p !! i with
      | Some w =>
          resolved w (set_world (delete i (awaiting p)) (invoked p) (onSaveCalls p) p)
      | None => p
      end
  | Rejects i reason =>
      match awaiting p !! i with
      | Some w =>
          rejected w reason
            (set_world (delete i (awaiting p)) (invoked p) (onSaveCalls p) p)
      | None => p
      end
  end.

Definition run (p : Panel) (events : list Event) : Panel :=
  foldl step p events.

(** [handleSave] refuses with [e]: it shows the message of [e] and touches
    nothing else; in particular it issues no command. *)
Definition refuses (p : Panel) (e : SaveError) : Prop :=
  handleSave p = setError (saveMessage e) p.

End Settings.

(** ** An engine to run examples on

    On strings of ASCII code units [toLowerCase] maps [A-Z] to [a-z] and
    nothing else; the two numeric operations are taken in exact arithmetic. *)
Definition asciiLower (s : jsstring) : jsstring :=
  (λ c : N, if (65 <=? c)%N && (c <=? 90)%N then (c + 32)%N else c) <$> s.

Definition exactFixed1 (x k i : Z) : jsstring :=
  let d := k ^ i in
  let tenths := (20 * x + d) / (2 * d) in
  toString (tenths / 10)
  ++ (if tenths mod 10 =? 0 then [] else u16 "." ++ toString (tenths mod 10)).

Definition asciiEngine : Engine :=
  {| toLowerCase := asciiLower;
     logFloor := λ x k, Z.log2 x / Z.log2 k;
     toFixed1 := exactFixed1 |}.

(** ** Sample data for the examples *)

Definition sampleResult : DropResult :=
  {| DropResult.url := u16 "https://cdn.example/photo.webp";
     DropResult.local_path := None;
     DropResult.r2_key := Some (u16 "photo.webp");
     DropResult.original_size := 4096;
     DropResult.processed_size := 1536;
     DropResult.file_type := u16 "webp";
     DropResult.is_demo := false |}.

(** The record of the [n]-th upload of a day. *)
Definition sampleItem (n : Z) : UploadItem :=
  {| UploadItem.id := toString n;
     UploadItem.name := u16 "notes.txt";
     UploadItem.size := u16 "1.5 KB";
     UploadItem.url := u16 "https://cdn.example/notes.txt";
     UploadItem.localPath := None;
     UploadItem.r2Key := Some (u16 "notes.txt");
     UploadItem.isDemo := false;
     UploadItem.timestamp := n |}.

(** A panel filled in and tested with success. *)
Definition testedPanel : Settings.Panel :=
  Settings.run Settings.initial
    [Settings.Change Settings.AccountId (u16 "acct");
     Settings.Change Settings.BucketName (u16 "drops");
     Settings.Change Settings.AccessKey (u16 "AK");
     Settings.Change Settings.SecretKey (u16 "SK");
     Settings.Change Settings.PublicUrlBase (u16 "https://old.example");
     Settings.ClickTest;
     Settings.Resolves 0].

(** * Vocabulary of the properties *)

Section Vocabulary.

Context {engine : Engine}.

(** A path the allow-list refuses: its extension is non-empty and is not a
    member of the list. *)
Definition Unsupported (path : jsstring) : Prop :=
  getExtension path ≠ [] ∧ getExtension path ∉ ALLOWED_EXTENSIONS.

(** The single-flight guard after every event: the flag is set exactly while
    one command is awaited, and the display says "processing" only then. *)
Record Guarded (a : App) : Prop := {
  guard_flight : length (awaiting a) = if isProcessing a then 1%nat else 0%nat;
  guard_state : state a = Processing → isProcessing a = true
}.

(** The history after every event: bounded, and what the slot holds. *)
Record Bounded (a : App) : Prop := {
  hist_bound : (length (uploads a) ≤ MAX_RECENT_UPLOADS)%nat;
  hist_slot : storage a = Json (uploads a)
}.

(** A drop that gets past the debounce, the guard and the validator. *)
Record Accepts (a : App) (paths : list jsstring) (now : Z) : Prop := {
  acc_debounce : DEBOUNCE_MS ≤ now - lastDropTime a;
  acc_guard : isProcessing a = false;
  acc_nonempty : paths ≠ [];
  acc_valid : valid (validateFiles paths) = true
}.

(** A drop that gets past the debounce and the guard and fails validation. *)
Record Refuses (a : App) (paths : list jsstring) (now : Z) : Prop := {
  ref_debounce : DEBOUNCE_MS ≤ now - lastDropTime a;
  ref_guard : isProcessing a = false;
  ref_nonempty : paths ≠ [];
  ref_invalid : valid (validateFiles paths) = false
}.

(** [ShowsOutcome a a1 shown reset]: from [a], the component has just begun
    to show an outcome, [shown], in [a1], and scheduled [reset] to end the
    display. *)
Inductive ShowsOutcome (a : App) : App → AppState → Timer → Prop :=
| shows_success i paths result idNow tsNow :
    awaiting a !! i = Some paths →
    ShowsOutcome a (step a (UploadResolves i result idNow tsNow)) Success
      {| callback := ResetSession; delay := 2000 |}
| shows_failure i paths reason :
    awaiting a !! i = Some paths →
    ShowsOutcome a (step a (UploadRejects i reason)) Error
      {| callback := ResetSession; delay := 3000 |}
| shows_refusal paths now :
    Refuses a paths now →
    ShowsOutcome a (step a (DragDrop paths now)) Error
      {| callback := ResetStatus; delay := 3000 |}.

(** An event that is neither a drop nor a relaunch. *)
Definition quiet (e : Event) : bool :=
  match e with
  | DragDrop _ _ | Relaunch => false
  | _ => true
  end.

(** The sentence "of any two drop notifications arriving less than 300 ms
    apart, only the first is forwarded", in its weakest reading: the second
    of two such drops is discarded, that is, leaves the component as it found
    it. *)
Definition SecondOfTwoDiscarded : Prop :=
  ∀ events p1 t1 p2 t2,
    p1 ≠ [] → p2 ≠ [] → 0 ≤ t2 - t1 < DEBOUNCE_MS →
    let a1 := step (run firstLaunch events) (DragDrop p1 t1) in
    step a1 (DragDrop p2 t2) = a1.

(** The sentence "if the persisted value is malformed, it is treated as an
    empty history rather than a fatal error, and the process continues
    normally". *)
Definition MalformedStartsEmpty : Prop :=
  ∀ slot, malformed slot → launch slot = Mounted firstLaunch.

(** The sentence "for every non-processing session state a drag-over
    notification sets the state to drag-over and a drag-leave notification
    sets it to idle", read over the display state and over the states the
    program can be in. *)
Definition DragFollowsDisplay : Prop :=
  ∀ events,
    let a := run firstLaunch events in
    state a ≠ Processing →
    state (step a DragOverEvent) = DragOver
    ∧ state (step a DragLeaveEvent) = Idle.

(** A record whose object lives in the bucket. *)
Definition CloudBacked (item : UploadItem) : Prop :=
  truthyOpt (UploadItem.r2Key item) = true ∧ UploadItem.isDemo item = false.

(** The component with another content of the slot. *)
Definition withStorage (saved : Saved) (a : App) : App :=
  {| state := state a; statusText := statusText a; uploads := uploads a;
     currentFileName := currentFileName a; lastDropTime := lastDropTime a;
     isProcessing := isProcessing a; storage := saved;
     awaiting := awaiting a; detached := detached a; invoked := invoked a;
     timers := timers a; hideRequests := hideRequests a |}.

End Vocabulary.

(** The sentence "editing any credential field after a successful validation
    resets the validated flag", over the five fields of the form. *)
Definition EditResets : Prop :=
  ∀ p f v,
    Settings.validated p = true → v ≠ Settings.getField f p →
    Settings.validated (Settings.change f v p) = false.

(** * More of the program *)

(** ** Acting on a history item *)





(** ** Configuration status and the demo toggle *)

Module Shell.

Record ConfigStatus := {
  is_configured : bool;
  demo_mode : bool;
  bucket_name : option jsstring
}.

Inductive Command :=
| get_config_status
| set_demo_mode (enabled : bool).

(** What a pending command will resume: [.then(setConfigStatus)], or the rest
    of [toggleDemoMode] with the [newMode] it computed before its [await]. *)
Inductive Waiting :=
| LoadStatus
| Toggle (newMode : bool).

Record Shell := {
  configStatus : ConfigStatus;
  showSettings : bool;
  awaiting : list Waiting;
  invoked : list Command
}.

Definition invoke (w : Waiting) (c : Command) (s : Shell) : Shell :=
  {| configStatus := configStatus s; showSettings := showSettings s;
     awaiting := awaiting s ++ [w]; invoked := invoked s ++ [c] |}.

Definition setConfigStatus (f : ConfigStatus -> ConfigStatus) (s : Shell) : Shell :=
  {| configStatus := f (configStatus s); showSettings := showSettings s;
     awaiting := awaiting s; invoked := invoked s |}.

Definition setShowSettings (v : bool) (s : Shell) : Shell :=
  {| configStatus := configStatus s; showSettings := v;
     awaiting := awaiting s; invoked := invoked s |}.

Definition settle (i : nat) (s : Shell) : Shell :=
  {| configStatus := configStatus s; showSettings := showSettings s;
     awaiting := delete i (awaiting s); invoked := invoked s |}.

(** The [useState] initial values, then the mount effect asking for the
    status. *)
Definition mount : Shell :=
  invoke LoadStatus get_config_status
    {| configStatus := {| is_configured := false; demo_mode := true;
                          bucket_name := None |};
       showSettings := false; awaiting := []; invoked := [] |}.

Definition handleConfigSaved (s : Shell) : Shell :=
  setShowSettings false (invoke LoadStatus get_config_status s).

(** [toggleDemoMode] up to its [await]: [newMode] is computed from the status
    of the render the handler belongs to. *)
Definition toggleDemoMode (s : Shell) : Shell :=
  let newMode := negb (demo_mode (configStatus s)) in
  invoke (Toggle newMode) (set_demo_mode newMode) s.

(** [prev => ({ ...prev, demo_mode: newMode })] *)
Definition withDemoMode (newMode : bool) (prev : ConfigStatus) : ConfigStatus :=
  {| is_configured := is_configured prev; demo_mode := newMode;
     bucket_name := bucket_name prev |}.

Definition resolved (w : Waiting) (result : ConfigStatus) (s : Shell) : Shell :=
  match w with
  | LoadStatus => setConfigStatus (λ _, result) s
  | Toggle newMode => setConfigStatus (withDemoMode newMode) s
  end.

Inductive Event :=
| OpenSettings                               (* the gear button *)
| CloseSettings                              (* the panel's [onClose] *)
| ConfigSaved                                (* the panel's [onSave] *)
| ToggleDemo                                 (* the panel's [onToggleDemo] *)
| Resolves (i : nat) (result : ConfigStatus) (* [result] is what
                                                [get_config_status] returns;
                                                [toggleDemoMode] ignores it *)
| Rejects (i : nat).                         (* neither handler catches *)

Definition step (s : Shell) (e : Event) : Shell :=
  match e with
  | OpenSettings => setShowSettings true s
  | CloseSettings => setShowSettings false s
  | ConfigSaved => handleConfigSaved s
  | ToggleDemo => toggleDemoMode s
  | Resolves i result =>
      match awaiting s !! i with
      | Some w => resolved w result (settle i s)
      | None => s
      end
  | Rejects i => settle i s
  end.

Definition run (s : Shell) (events : list Event) : Shell := foldl step s events.

End Shell.

(** ** The settings panel as the user can drive it *)

(** The [disabled] attributes of the panel, [demo] being
    [configStatus.demo_mode]. *)
Definition inputDisabled (demo : bool) : bool := demo.

Definition testDisabled (demo : bool) (p : Settings.Panel) : bool :=
  Settings.validating p || demo.

Definition saveDisabled (demo : bool) (p : Settings.Panel) : bool :=
  Settings.saving p || demo || negb (Settings.validated p).

(** Whether the panel, as rendered, lets the event happen. *)
Definition enabled (demo : bool) (p : Settings.Panel) (e : Settings.Event) : bool :=
  match e with
  | Settings.Change _ _ => negb (inputDisabled demo)
  | Settings.ClickTest => negb (testDisabled demo p)
  | Settings.ClickSave => negb (saveDisabled demo p)
  | Settings.Resolves _ | Settings.Rejects _ _ => true
  end.

(** One event at the rendered panel: a disabled control does nothing. *)
Definition uiStep (p : Settings.Panel) (de : bool * Settings.Event) : Settings.Panel :=
  if enabled de.1 p de.2 then Settings.step p de.2 else p.

(** A run in which each event comes with the demo mode of its moment. *)
Definition uiRun (p : Settings.Panel) (events : list (bool * Settings.Event))
    : Settings.Panel :=
  foldl uiStep p events.

Definition sameHandler (w w' : Settings.Waiting) : bool :=
  match w, w' with
  | Settings.InValidate, Settings.InValidate
  | Settings.InSave, Settings.InSave => true
  | _, _ => false
  end.

(** How many pending commands will resume the handler [w]. *)
Definition pending (w : Settings.Waiting) (p : Settings.Panel) : nat :=
  length (filter (λ w', sameHandler w w' = true) (Settings.awaiting p)).

(** A command of the panel that leaves no credential empty. *)
Definition Complete (c : Settings.Command) : Prop :=
  match c with
  | Settings.validate_r2_config config
  | Settings.set_r2_config config =>
      Settings.access_key config ≠ [] ∧ Settings.secret_key config ≠ []
      ∧ Settings.bucket_name config ≠ [] ∧ Settings.account_id config ≠ []
      ∧ Settings.public_url_base config ≠ []
  end.

Definition isSave (c : Settings.Command) : bool :=
  match c with
  | Settings.set_r2_config _ => true
  | Settings.validate_r2_config _ => false
  end.

(** How many [set_r2_config] commands a log holds. *)
Definition saves (log : list Settings.Command) : nat :=
  length (filter (λ c, isSave c = true) log).

(** ** More vocabulary for the main component *)

Section MoreVocabulary.

Context {engine : Engine}.

(** A command the main component may send: a batch that passed the
    validator, or the key of a stored object. *)
Definition Sendable (c : Command) : Prop :=
  match c with
  | process_and_upload paths =>
      paths ≠ [] ∧ (length paths ≤ MAX_FILES)%nat
      ∧ valid (validateFiles paths) = true
  | delete_from_r2 key => key ≠ []
  end.

(** A timer whose callback brings the display back to idle. *)
Definition resets (t : Timer) : Prop := callback t ≠ HideWindow.

(** While the display says "processing", it describes the one batch that is
    being processed. *)
Definition ShowsProcessing (a : App) : Prop :=
  state a = Processing →
  ∃ paths, awaiting a = [paths]
    ∧ statusText a = processingText paths
    ∧ currentFileName a = default [] (head (getFileName <$> paths)).

(** While the display shows an outcome, a timer that ends it is scheduled. *)
Definition SelfClearing (a : App) : Prop :=
  state a = Success ∨ state a = Error → ∃ t, t ∈ timers a ∧ resets t.

(** What an accepted drop leaves behind. *)
Definition started (paths : list jsstring) (now : Z) (a : App) : App :=
  invoke_process_and_upload paths
    (setStatusText (processingText paths)
       (setState Processing
          (setCurrentFileName (default [] (head (getFileName <$> paths)))
             (set_isProcessing true (set_lastDropTime now a))))).

(** What a refused drop leaves behind. *)
Definition refused (paths : list jsstring) (now : Z) (a : App) : App :=
  setTimeout ResetStatus 3000
    (setStatusText (default [] (error (validateFiles paths)))
       (setState Error (set_lastDropTime now a))).

End MoreVocabulary.

(** * Properties *)

(** ** Strings and the validator *)

Section ValidatorFacts.

Context {engine : Engine}.

Lemma split_cons_inv sep s : ∃ part parts, split sep s = part :: parts.
Proof.
  destruct s as [|c s]; simpl; [by eauto|].
  destruct (N.eqb c sep); [by eauto|].
  destruct (split sep s); eauto.
Qed.

Lemma split_no_sep sep s : sep ∉ s → split sep s = [s].
Proof.
  induction s as [|c s IH]; intros Hs; simpl; [done|].
  apply not_elem_of_cons in Hs as [Hc Hs].
  destruct (N.eqb_spec c sep) as [->|_]; [done|].
  by rewrite IH.
Qed.

Lemma split_app sep pre suf :
  split sep (pre ++ sep :: suf) = split sep pre ++ split sep suf.
Proof.
  induction pre as [|c pre IH]; simpl.
  - by rewrite N.eqb_refl.
  - destruct (N.eqb c sep); [by rewrite IH|].
    rewrite IH. by destruct (split_cons_inv sep pre) as (p & ps & ->).
Qed.

Lemma pop_split_after sep pre suf :
  sep ∉ suf → pop (split sep (pre ++ sep :: suf)) = Some suf
              ∧ (1 < length (split sep (pre ++ sep :: suf)))%nat.
Proof.
  intros H. unfold pop.
  rewrite split_app, (split_no_sep _ suf H), last_snoc, length_app.
  destruct (split_cons_inv sep pre) as (p & ps & ->). simpl. split; [done|lia].
Qed.

Lemma getExtension_no_dot path : dot ∉ path → getExtension path = [].
Proof. intros H. unfold getExtension. by rewrite split_no_sep. Qed.

Lemma getExtension_after_dot stem suffix :
  dot ∉ suffix → getExtension (stem ++ dot :: suffix) = toLowerCase suffix.
Proof.
  intros H. unfold getExtension.
  destruct (pop_split_after dot stem suffix H) as [-> Hlen].
  apply Nat.ltb_lt in Hlen. by rewrite Hlen.
Qed.

Lemma offender_iff path :
  truthy (getExtension path) && negb (has (getExtension path)) = true
  ↔ Unsupported path.
Proof.
  unfold Unsupported, has.
  rewrite andb_true_iff, negb_true_iff, bool_decide_eq_false.
  by destruct (getExtension path); simpl; intuition.
Qed.

Lemma validateLoop_offender before path after :
  Forall (λ p, ¬ Unsupported p) before → Unsupported path →
  validateLoop (before ++ path :: after)
  = failWith (UnsupportedType (getExtension path) (getFileName path)).
Proof.
  intros Hbefore Hpath. induction Hbefore as [|p before Hp _ IH]; simpl.
  - apply offender_iff in Hpath. by rewrite Hpath.
  - destruct (truthy _ && _) eqn:E; [|done].
    by apply offender_iff in E.
Qed.

Lemma validateLoop_accepts paths :
  Forall (λ p, ¬ Unsupported p) paths → validateLoop paths = accepted.
Proof.
  induction 1 as [|p paths Hp _ IH]; simpl; [done|].
  destruct (truthy _ && _) eqn:E; [|done].
  by apply offender_iff in E.
Qed.

Lemma getFileName_no_slash path : slash ∉ path → getFileName path = path.
Proof.
  intros H. unfold getFileName, pop. rewrite split_no_sep by done. simpl.
  by destruct path.
Qed.

Lemma getFileName_after_slash dir name :
  slash ∉ name → name ≠ [] → getFileName (dir ++ slash :: name) = name.
Proof.
  intros Hs Hne. unfold getFileName.
  destruct (pop_split_after slash dir name Hs) as [-> _]. simpl.
  by destruct name.
Qed.

(** C2. [validateFiles] applies its rules in order.  An empty batch fails with
    [EmptyBatch]; a batch of more than 50 paths fails with [TooManyFiles]
    whatever it holds; otherwise the first path whose extension is non-empty
    and not in the allow-list makes it fail with [UnsupportedType], naming
    that extension and that file, and the paths after it are not looked at;
    a batch with no such path is accepted.  The extension of a path is the
    lower-cased text after its last dot, and is empty when the path has no
    dot.  ([validateFiles] is a function of [paths] alone: it reads and writes
    no state.) *)
Theorem validateFiles_rules (paths : list jsstring) :
  (paths = [] → validateFiles paths = failWith EmptyBatch)
  ∧ ((50 < length paths)%nat → validateFiles paths = failWith (TooManyFiles 50))
  ∧ (∀ before path after,
       paths = before ++ path :: after → (length paths ≤ 50)%nat →
       Forall (λ p, ¬ Unsupported p) before → Unsupported path →
       validateFiles paths
       = failWith (UnsupportedType (getExtension path) (getFileName path)))
  ∧ (paths ≠ [] → (length paths ≤ 50)%nat →
     Forall (λ p, ¬ Unsupported p) paths → validateFiles paths = accepted)
  ∧ (∀ path,
       (dot ∉ path → getExtension path = [])
       ∧ (∀ stem suffix, path = stem ++ dot :: suffix → dot ∉ suffix →
            getExtension path = toLowerCase suffix)).
Proof.
  repeat split.
  - by intros ->.
  - intros Hlen. unfold validateFiles, MAX_FILES.
    destruct paths; [simpl in Hlen; lia|]. simpl Nat.eqb. cbv iota.
    apply Nat.ltb_lt in Hlen. by rewrite Hlen.
  - intros before path after -> Hlen Hbefore Hpath. unfold validateFiles, MAX_FILES.
    replace (length _ =? 0)%nat with false
      by (symmetry; apply Nat.eqb_neq; rewrite length_app; simpl; lia).
    replace (50 <? length _)%nat with false by (symmetry; apply Nat.ltb_ge; lia).
    by apply validateLoop_offender.
  - intros Hne Hlen Hall. unfold validateFiles, MAX_FILES.
    destruct paths as [|p paths]; [done|]. simpl Nat.eqb. cbv iota.
    replace (50 <? length _)%nat with false by (symmetry; apply Nat.ltb_ge; lia).
    by apply validateLoop_accepts.
  - apply getExtension_no_dot.
  - intros stem suffix -> Hdot. by apply getExtension_after_dot.
Qed.

End ValidatorFacts.

(** ** The session controller *)

Section ControllerFacts.

Context {engine : Engine}.

Ltac handlers :=
  unfold dropListener, processFiles, dragOverListener, dragLeaveListener,
    handleKeyDown, deleteUpload, clearUploads, runCallback in *.

Ltac fields := split; simpl; try done.

Lemma length_prepend r prev :
  length (prepend r prev) = (S (length prev) `min` MAX_RECENT_UPLOADS)%nat.
Proof. unfold prepend. rewrite length_take. cbn [length]. lia. Qed.

Lemma awaiting_settle a i paths :
  Guarded a → awaiting a !! i = Some paths →
  isProcessing a = true ∧ awaiting a = [paths] ∧ delete i (awaiting a) = [].
Proof.
  intros [Hfl _] Hi. pose proof (lookup_lt_Some _ _ _ Hi) as Hlt.
  rewrite Hfl in Hlt. destruct (isProcessing a); [|lia].
  destruct (awaiting a) as [|p [|]]; try done.
  destruct i; [|simpl in Hlt; lia]. by simplify_eq/=.
Qed.

Lemma Guarded_mount saved : Guarded (mount saved).
Proof. by split. Qed.

Lemma Guarded_step a e : Guarded a → Guarded (step a e).
Proof.
  intros Ha. pose proof (awaiting_settle a) as Hsettle.
  destruct Ha as [Hfl Hst]. specialize (λ i paths, Hsettle i paths (Build_Guarded _ Hfl Hst)).
  destruct e; simpl.
  - handlers. destruct (0 <? length paths)%nat; [|by split].
    destruct (now - lastDropTime a <? DEBOUNCE_MS); [by split|]. simpl.
    destruct (isProcessing a) eqn:Hp; [by fields; rewrite ?Hp|].
    destruct (length paths =? 0)%nat; [by fields; rewrite ?Hp|].
    destruct (valid (validateFiles paths)); simpl; [|by fields; rewrite ?Hp].
    fields. rewrite length_app, Hfl. simpl. lia.
  - handlers. destruct (isProcessing a) eqn:Hp; simpl; fields;
      by rewrite ?Hp.
  - handlers. destruct (isProcessing a) eqn:Hp; simpl; fields;
      by rewrite ?Hp.
  - destruct (awaiting a !! i) as [paths|] eqn:Hi; [|by split].
    destruct (Hsettle _ _ Hi) as (_ & _ & Hdel).
    fields. by rewrite Hdel.
  - destruct (awaiting a !! i) as [paths|] eqn:Hi; [|by split].
    destruct (Hsettle _ _ Hi) as (_ & _ & Hdel).
    fields. by rewrite Hdel.
  - by fields.
  - destruct (timers a !! i) as [t|]; [|by split].
    destruct t as [[] ?]; by fields.
  - handlers. case_bool_decide; by fields.
  - handlers. destruct (_ && _); by fields.
  - by fields.
  - apply Guarded_mount.
Qed.

Lemma Guarded_run a events : Guarded a → Guarded (run a events).
Proof.
  revert a. induction events as [|e events IH]; intros a Ha; [done|].
  apply IH. by apply Guarded_step.
Qed.

Lemma Bounded_mount saved :
  (length (loadUploads saved) ≤ MAX_RECENT_UPLOADS)%nat → Bounded (mount saved).
Proof. intros H. by split. Qed.

Lemma Bounded_step a e : Bounded a → Bounded (step a e).
Proof.
  intros [Hbd Hsl]. destruct e; simpl.
  - handlers. destruct (0 <? length paths)%nat; [|by split].
    destruct (now - lastDropTime a <? DEBOUNCE_MS); [by split|]. simpl.
    destruct (isProcessing a) eqn:Hp; [by fields|].
    destruct (length paths =? 0)%nat; [by fields|].
    destruct (valid (validateFiles paths)); by fields.
  - handlers. destruct (isProcessing a); by fields.
  - handlers. destruct (isProcessing a); by fields.
  - destruct (awaiting a !! i) as [paths|]; [|by split].
    fields. rewrite length_take. unfold MAX_RECENT_UPLOADS. lia.
  - destruct (awaiting a !! i) as [paths|]; [|by split].
    by fields.
  - by fields.
  - destruct (timers a !! i) as [t|]; [|by split].
    destruct t as [[] ?]; by fields.
  - handlers. case_bool_decide; by fields.
  - handlers. destruct (_ && _); fields;
      (etrans; [apply length_filter|done]).
  - fields. unfold MAX_RECENT_UPLOADS. lia.
  - apply Bounded_mount. by rewrite Hsl.
Qed.

Lemma Bounded_run a events : Bounded a → Bounded (run a events).
Proof.
  revert a. induction events as [|e events IH]; intros a Ha; [done|].
  apply IH. by apply Bounded_step.
Qed.

(** What an accepted drop does, in one step. *)
Lemma step_accepts a paths now :
  Accepts a paths now →
  step a (DragDrop paths now)
  = invoke_process_and_upload paths
      (setStatusText (processingText paths)
         (setState Processing
            (setCurrentFileName (default [] (head (getFileName <$> paths)))
               (set_isProcessing true (set_lastDropTime now a))))).
Proof.
  intros [Hd Hg Hn Hv]. simpl. unfold dropListener, processFiles.
  destruct paths as [|p paths]; [done|]. simpl length. simpl Nat.ltb.
  simpl Nat.eqb. cbv iota.
  replace (now - lastDropTime a <? DEBOUNCE_MS) with false
    by (symmetry; apply Z.ltb_ge; lia).
  cbn [isProcessing set_lastDropTime]. by rewrite Hg, Hv.
Qed.

(** What a refused drop does, in one step. *)
Lemma step_refuses a paths now :
  Refuses a paths now →
  step a (DragDrop paths now)
  = setTimeout ResetStatus 3000
      (setStatusText (default [] (error (validateFiles paths)))
         (setState Error (set_lastDropTime now a))).
Proof.
  intros [Hd Hg Hn Hv]. simpl. unfold dropListener, processFiles.
  destruct paths as [|p paths]; [done|]. simpl length. simpl Nat.ltb.
  simpl Nat.eqb. cbv iota.
  replace (now - lastDropTime a <? DEBOUNCE_MS) with false
    by (symmetry; apply Z.ltb_ge; lia).
  cbn [isProcessing set_lastDropTime]. by rewrite Hg, Hv.
Qed.

(** A drop while the guard is set changes nothing but the debounce clock. *)
Lemma step_guarded a paths now :
  isProcessing a = true →
  step a (DragDrop paths now) = a ∨ step a (DragDrop paths now) = set_lastDropTime now a.
Proof.
  intros Hp. simpl. unfold dropListener, processFiles.
  destruct (0 <? length paths)%nat; [|by left].
  destruct (now - lastDropTime a <? DEBOUNCE_MS); [by left|].
  cbn [isProcessing set_lastDropTime]. rewrite Hp. by right.
Qed.

(** A drop sends a command only if it is accepted. *)
Lemma step_invokes a paths now :
  invoked (step a (DragDrop paths now)) ≠ invoked a → Accepts a paths now.
Proof.
  simpl. unfold dropListener, processFiles.
  destruct paths as [|p paths]; [done|]. simpl length. simpl Nat.ltb.
  simpl Nat.eqb. cbv iota.
  destruct (Z.ltb_spec (now - lastDropTime a) DEBOUNCE_MS); [done|].
  cbn [isProcessing set_lastDropTime].
  destruct (isProcessing a) eqn:Hp; [done|].
  destruct (valid _) eqn:Hv; [|done]. by split.
Qed.

(** C1. Single-flight.  Whatever the slot held at start-up and whatever
    events follow, at most one [process_and_upload] command is awaited at any
    time.  While the session is processing (the display says so, or the guard
    flag is set) a further drop is discarded: it changes at most the debounce
    clock, and no command goes out.  A drop sends a command only when the
    guard is clear and nothing is awaited, and the very step that sends it
    sets the guard: check and set happen before the [await]. *)
Theorem single_flight (saved : Saved) (events : list Event) :
  let a := run (mount saved) events in
  (length (awaiting a) ≤ 1)%nat
  ∧ (∀ paths now,
       state a = Processing ∨ isProcessing a = true →
       let a' := step a (DragDrop paths now) in
       (a' = a ∨ a' = set_lastDropTime now a)
       ∧ awaiting a' = awaiting a ∧ invoked a' = invoked a)
  ∧ (∀ paths now,
       let a' := step a (DragDrop paths now) in
       invoked a' ≠ invoked a →
       isProcessing a = false ∧ awaiting a = []
       ∧ isProcessing a' = true ∧ awaiting a' = [paths]
       ∧ invoked a' = invoked a ++ [process_and_upload paths]).
Proof.
  intros a. assert (Guarded a) as Ha by apply Guarded_run, Guarded_mount.
  pose proof (guard_flight _ Ha) as Hfl.
  split; [|split].
  - rewrite Hfl. destruct (isProcessing a); lia.
  - intros paths now Hproc a'.
    assert (isProcessing a = true) as Hp.
    { destruct Hproc as [Hs|Hp]; [by apply (guard_state _ Ha)|done]. }
    destruct (step_guarded a paths now Hp) as [Heq|Heq];
      subst a'; rewrite Heq; auto.
  - intros paths now a' Hinv. subst a'.
    apply step_invokes in Hinv as Hacc. rewrite (step_accepts _ _ _ Hacc).
    destruct Hacc as [_ Hg _ _]. rewrite Hg in Hfl.
    apply nil_length_inv in Hfl. simpl. by rewrite Hfl.
Qed.

(** C5. The guard flag cannot stay set.  In every state the program can be
    in: the step that accepts a batch sets the flag and sends the command;
    when the awaited command settles, the flag is clear afterwards, whether
    the command resolved or rejected; and whenever the flag is set there is an
    awaited command, so a settlement that clears it is still to come. *)
Theorem guard_released (saved : Saved) (events : list Event) :
  let a := run (mount saved) events in
  (∀ paths now,
     Accepts a paths now →
     let a' := step a (DragDrop paths now) in
     isProcessing a' = true ∧ awaiting a' = awaiting a ++ [paths])
  ∧ (∀ i paths result idNow tsNow reason,
       awaiting a !! i = Some paths →
       isProcessing (step a (UploadResolves i result idNow tsNow)) = false
       ∧ isProcessing (step a (UploadRejects i reason)) = false)
  ∧ (isProcessing a = true →
     ∃ paths, awaiting a = [paths]
       ∧ (∀ result idNow tsNow,
            isProcessing (step a (UploadResolves 0 result idNow tsNow)) = false)
       ∧ (∀ reason, isProcessing (step a (UploadRejects 0 reason)) = false)).
Proof.
  intros a. assert (Guarded a) as Ha by apply Guarded_run, Guarded_mount.
  split; [|split].
  - intros paths now Hacc a'. subst a'. by rewrite (step_accepts _ _ _ Hacc).
  - intros i paths result idNow tsNow reason Hi. simpl. by rewrite Hi.
  - intros Hp. pose proof (guard_flight _ Ha) as Hfl. rewrite Hp in Hfl.
    destruct (awaiting a) as [|paths [|]] eqn:Haw; try done.
    exists paths. split; [done|]. simpl. by rewrite Haw.
Qed.

Lemma flag_display_step a e :
  (isProcessing a = true → state a = Processing ∨ state a = Idle) →
  isProcessing (step a e) = true →
  state (step a e) = Processing ∨ state (step a e) = Idle.
Proof.
  intros Ha. destruct e; simpl.
  - handlers. destruct (0 <? length paths)%nat; [|done].
    destruct (now - lastDropTime a <? DEBOUNCE_MS); [done|]. simpl.
    destruct (isProcessing a) eqn:Hp; [by intros _; apply Ha|].
    destruct (length paths =? 0)%nat; [simpl; by rewrite Hp|].
    destruct (valid (validateFiles paths)); simpl; [by left|by rewrite Hp].
  - handlers. destruct (isProcessing a) eqn:Hp; simpl; [by intros _; apply Ha|].
    by rewrite Hp.
  - handlers. destruct (isProcessing a) eqn:Hp; simpl; [by intros _; apply Ha|].
    by rewrite Hp.
  - by destruct (awaiting a !! i).
  - by destruct (awaiting a !! i).
  - done.
  - destruct (timers a !! i) as [[[] ?]|]; simpl; auto.
  - handlers. by case_bool_decide.
  - handlers. by destruct (_ && _).
  - done.
  - done.
Qed.

Lemma flag_display_run a events :
  (isProcessing a = true → state a = Processing ∨ state a = Idle) →
  isProcessing (run a events) = true →
  state (run a events) = Processing ∨ state (run a events) = Idle.
Proof.
  revert a. induction events as [|e events IH]; intros a Ha; [done|].
  apply IH. by apply flag_display_step.
Qed.

(** C10, as the program has it.  The two drag listeners look at the guard
    flag and at nothing else.  With the flag clear, whatever the display
    shows (success and error included), drag-over makes it [DragOver] and
    drag-leave makes it [Idle]; with the flag set both do nothing.  So right
    after an upload resolved or rejected, or a batch was refused, with the
    timer that would reset the display still scheduled, a drag-over or
    drag-leave already replaces the success or error display, and the timer
    stays scheduled.  In every state the program can be in, a display of
    drag-over, success or error has the flag clear, so there the listeners
    act; only an idle display can have the flag set. *)
Theorem drag_gated_on_flag (a : App) :
  (isProcessing a = false →
     state (step a DragOverEvent) = DragOver
     ∧ state (step a DragLeaveEvent) = Idle)
  ∧ (isProcessing a = true →
       step a DragOverEvent = a ∧ step a DragLeaveEvent = a)
  ∧ (∀ a1 shown reset,
       ShowsOutcome a a1 shown reset →
       (shown = Success ∨ shown = Error)
       ∧ state a1 = shown ∧ reset ∈ timers a1
       ∧ state (step a1 DragOverEvent) = DragOver
       ∧ state (step a1 DragLeaveEvent) = Idle
       ∧ reset ∈ timers (step a1 DragOverEvent)
       ∧ reset ∈ timers (step a1 DragLeaveEvent))
  ∧ (∀ saved events,
       let r := run (mount saved) events in
       state r = DragOver ∨ state r = Success ∨ state r = Error →
       isProcessing r = false
       ∧ state (step r DragOverEvent) = DragOver
       ∧ state (step r DragLeaveEvent) = Idle).
Proof.
  split; [|split; [|split]]; [| | |
    intros saved events r Hshown;
    assert (isProcessing r = false) as Hp;
    [destruct (isProcessing r) eqn:Hp; [|done];
     destruct (flag_display_run (mount saved) events) as [Hs|Hs];
       [done|done|fold r in Hs; rewrite Hs in Hshown|
        fold r in Hs; rewrite Hs in Hshown];
     by destruct Hshown as [|[|]]
    |split; [done|];
     simpl; unfold dragOverListener, dragLeaveListener; by rewrite Hp]].
  - intros Hp. simpl. unfold dragOverListener, dragLeaveListener. by rewrite Hp.
  - intros Hp. simpl. unfold dragOverListener, dragLeaveListener. by rewrite Hp.
  - intros a1 shown reset [i paths result idNow tsNow Hi|i paths reason Hi|paths now Href].
    + simpl. rewrite Hi. simpl. set_solver.
    + simpl. rewrite Hi. simpl. set_solver.
    + rewrite (step_refuses _ _ _ Href). simpl.
      destruct Href as [_ Hg _ _]. unfold dragOverListener, dragLeaveListener.
      simpl. rewrite Hg. simpl. set_solver.
Qed.

Lemma quiet_lastDropTime a e :
  quiet e = true → lastDropTime (step a e) = lastDropTime a.
Proof.
  destruct e; try done; intros _; simpl; handlers.
  - by destruct (negb _).
  - by destruct (negb _).
  - by destruct (awaiting a !! i).
  - by destruct (awaiting a !! i).
  - destruct (timers a !! i) as [[[] ?]|]; done.
  - by case_bool_decide.
  - by destruct (_ && _).
Qed.

Lemma quiet_run_lastDropTime a events :
  Forall (λ e, quiet e = true) events →
  lastDropTime (run a events) = lastDropTime a.
Proof.
  intros Hq. revert a. induction Hq as [|e events He _ IH]; intros a; [done|].
  unfold run in *. cbn [foldl]. by rewrite IH, quiet_lastDropTime.
Qed.

Lemma step_debounced a paths now :
  now - lastDropTime a < DEBOUNCE_MS → step a (DragDrop paths now) = a.
Proof.
  intros Hlt. simpl. unfold dropListener, processFiles.
  destruct (0 <? length paths)%nat; [|done].
  by replace (now - lastDropTime a <? DEBOUNCE_MS) with true
    by (symmetry; apply Z.ltb_lt; lia).
Qed.

Lemma step_forwarded a paths now :
  paths ≠ [] → DEBOUNCE_MS ≤ now - lastDropTime a →
  lastDropTime (step a (DragDrop paths now)) = now.
Proof.
  intros Hne Hge. simpl. unfold dropListener, processFiles.
  destruct paths as [|p paths]; [done|]. simpl length. simpl Nat.ltb.
  simpl Nat.eqb. cbv iota.
  replace (now - lastDropTime a <? DEBOUNCE_MS) with false
    by (symmetry; apply Z.ltb_ge; lia).
  cbn [isProcessing set_lastDropTime].
  destruct (isProcessing a); [done|]. by destruct (negb _).
Qed.

(** C3, as the program has it.  A drop that comes less than 300 ms after the
    last drop that got past the debounce is discarded: the component is left
    exactly as it was (no state change, no error shown).  A drop that gets
    past the debounce becomes the new reference, whatever the controller then
    does with it.  Hence of two drops less than 300 ms apart, if the first
    gets past the debounce, the second is discarded, whatever happens in
    between other than a relaunch. *)
Theorem debounce (a : App) (paths : list jsstring) (now : Z) :
  (now - lastDropTime a < DEBOUNCE_MS → step a (DragDrop paths now) = a)
  ∧ (paths ≠ [] → DEBOUNCE_MS ≤ now - lastDropTime a →
     lastDropTime (step a (DragDrop paths now)) = now
     ∧ ∀ between p2 t2,
         Forall (λ e, quiet e = true) between →
         t2 - now < DEBOUNCE_MS →
         let a1 := run (step a (DragDrop paths now)) between in
         step a1 (DragDrop p2 t2) = a1).
Proof.
  split; [apply step_debounced|].
  intros Hne Hge. split; [by apply step_forwarded|].
  intros between p2 t2 Hq Hlt a1. apply step_debounced. subst a1.
  rewrite quiet_run_lastDropTime by done. by rewrite step_forwarded.
Qed.

Lemma take_app_take {A} (n : nat) (l k : list A) :
  take n (l ++ take n k) = take n (l ++ k).
Proof.
  rewrite !take_app, take_take. f_equal. f_equal. lia.
Qed.

Lemma foldl_prepend prev records :
  (length prev ≤ MAX_RECENT_UPLOADS)%nat →
  foldl (λ h r, prepend r h) prev records
  = take MAX_RECENT_UPLOADS (reverse records ++ prev).
Proof.
  revert prev. induction records as [|r records IH]; intros prev Hprev; simpl.
  - by rewrite take_ge.
  - rewrite IH by (rewrite length_prepend; lia).
    unfold prepend. by rewrite take_app_take, reverse_cons, <- app_assoc.
Qed.

(** C4. From the first launch on, through any events and any number of
    relaunches, the history never holds more than 10 records, and the slot
    holds the history.  A successful upload puts its record first and keeps
    the first 10 of the result, so records stand newest first and the oldest
    fall off the end.  Hence after N successful uploads the history is the
    first 10 of (the N new records, newest first, followed by the old
    history); for N > 10 that is exactly the last 10 uploaded, newest
    first. *)
Theorem history_bounded (events : list Event) :
  let a := run firstLaunch events in
  (length (uploads a) ≤ 10)%nat
  ∧ storage a = Json (uploads a)
  ∧ (∀ i paths result idNow tsNow,
       awaiting a !! i = Some paths →
       let record := newUpload paths result idNow tsNow in
       let a' := step a (UploadResolves i result idNow tsNow) in
       uploads a' = take 10 (record :: uploads a)
       ∧ head (uploads a') = Some record)
  ∧ (∀ records,
       let after := foldl (λ h r, prepend r h) (uploads a) records in
       after = take 10 (reverse records ++ uploads a)
       ∧ ((10 < length records)%nat →
          after = reverse (drop (length records - 10) records)
          ∧ length after = 10%nat)).
Proof.
  intros a. assert (Bounded a) as [Hbd Hsl].
  { apply Bounded_run, Bounded_mount. simpl. lia. }
  split; [done|]. split; [done|]. split.
  - intros i paths result idNow tsNow Hi record a'. subst a'.
    simpl. by rewrite Hi.
  - intros records after. subst after. rewrite foldl_prepend by done.
    split; [done|]. intros Hlen. unfold MAX_RECENT_UPLOADS.
    rewrite take_app_le by (rewrite length_reverse; lia).
    split; [by rewrite take_reverse|].
    rewrite length_take, length_reverse. lia.
Qed.

(** The load keeps every record the slot holds; the bound above rests on the
    slot having been written by the program, which the second conjunct
    maintains.  From any slot of at most 10 records the same bound holds. *)
Lemma mount_keeps_all items : uploads (mount (Json items)) = items.
Proof. done. Qed.

Lemma history_bounded_from saved events :
  (length (loadUploads saved) ≤ MAX_RECENT_UPLOADS)%nat →
  Bounded (run (mount saved) events).
Proof. intros H. by apply Bounded_run, Bounded_mount. Qed.

Lemma withStorage_step a e saved :
  e ≠ Relaunch →
  withStorage NoItem (step (withStorage saved a) e)
  = withStorage NoItem (step a e).
Proof.
  intros He. destruct e; try done; simpl; handlers; simpl.
  all: by repeat case_match.
Qed.

(** C9, as the program has it.  The slot is read at start-up and never
    again.  A slot that holds a list of records starts the history with that
    very list.  A slot that is absent, or empty, or holds a text that
    [JSON.parse] rejects, starts the empty history: the component is mounted
    in the very state of a first launch, and the program goes on as if
    nothing had been saved.  After start-up no event handler reads the slot:
    short of a relaunch, what an event does to the component does not depend
    on what the slot holds. *)
Theorem history_loaded_once :
  (∀ items,
     ∃ a, launch (Renderable (Json items)) = Mounted a
       ∧ uploads a = items ∧ state a = Idle ∧ storage a = Json items)
  ∧ (∀ saved,
       saved = NoItem ∨ (∃ text, saved = BadJson text) →
       launch (Renderable saved) = Mounted firstLaunch
       ∧ uploads firstLaunch = [] ∧ state firstLaunch = Idle
       ∧ isProcessing firstLaunch = false ∧ storage firstLaunch = Json [])
  ∧ (∀ a e saved,
       e ≠ Relaunch →
       withStorage NoItem (step (withStorage saved a) e)
       = withStorage NoItem (step a e)).
Proof.
  split; [|split].
  - intros items. by exists (mount (Json items)).
  - by intros saved [->|[text ->]].
  - intros a e saved. apply withStorage_step.
Qed.

Lemma filter_id_not_elem (item : UploadItem) (l : list UploadItem) :
  item ∉ filter (λ u, UploadItem.id u ≠ UploadItem.id item) l.
Proof. rewrite list_elem_of_filter. by intros [? _]. Qed.

(** C8. Removing a record filters the history by the record's id, in the same
    step: the record is no longer in the history, nor in the slot.  One
    [delete_from_r2] command goes out exactly when the click was a shift-click
    and the record is cloud-backed; otherwise none does.  Nothing waits for
    that command: the awaited commands are as before, and when it settles,
    well or badly, the history, the slot and the display are left alone. *)
Theorem deleteUpload_best_effort (a : App) (shiftKey : bool) (item : UploadItem) :
  let a' := step a (DeleteClick shiftKey item) in
  uploads a' = filter (λ u, UploadItem.id u ≠ UploadItem.id item) (uploads a)
  ∧ (item ∉ uploads a')
  ∧ storage a' = Json (uploads a')
  ∧ awaiting a' = awaiting a
  ∧ (shiftKey = true ∧ CloudBacked item →
     ∃ key, UploadItem.r2Key item = Some key
       ∧ invoked a' = invoked a ++ [delete_from_r2 key]
       ∧ detached a' = detached a ++ [key])
  ∧ (¬ (shiftKey = true ∧ CloudBacked item) →
     invoked a' = invoked a ∧ detached a' = detached a)
  ∧ (∀ i ok,
       let a'' := step a' (DeleteSettles i ok) in
       uploads a'' = uploads a' ∧ storage a'' = storage a'
       ∧ state a'' = state a' ∧ statusText a'' = statusText a'
       ∧ invoked a'' = invoked a').
Proof.
  intros a'. subst a'. simpl. unfold deleteUpload, CloudBacked.
  destruct shiftKey, (UploadItem.r2Key item) as [key|] eqn:Hkey,
    (UploadItem.isDemo item) eqn:Hdemo; simpl;
    try destruct (truthy key) eqn:Htr; simpl;
    repeat split; try done; try apply filter_id_not_elem;
    try (by intros [_ [? ?]]); try (by intros []; eauto); try tauto.
  all: try (intros _; by exists key).
Qed.

Lemma stripExtension_after_dot stem ext :
  ext ≠ [] → dot ∉ ext → stripExtension (stem ++ dot :: ext) = stem.
Proof.
  intros Hne Hdot. induction stem as [|c stem IH]; simpl.
  - rewrite bool_decide_eq_true_2 by done. by destruct ext.
  - rewrite IH. rewrite (bool_decide_eq_false_2 (dot ∉ stem ++ dot :: ext)).
    + by rewrite andb_false_r.
    + intros Hnot. apply Hnot. set_solver.
Qed.

Lemma displayName_archive paths result :
  (1 < length paths)%nat → displayName paths result = u16 "archive.zip".
Proof. intros H. unfold displayName. apply Nat.ltb_lt in H. by rewrite H. Qed.

Lemma displayName_single path stem ext result :
  getFileName path = stem ++ dot :: ext → ext ≠ [] → dot ∉ ext →
  displayName [path] result = stem ++ u16 "." ++ DropResult.file_type result.
Proof.
  intros Hname Hne Hdot. unfold displayName. simpl.
  by rewrite Hname, stripExtension_after_dot.
Qed.

Lemma getFileName_of_path dir stem ext :
  slash ∉ stem → slash ∉ ext →
  getFileName (dir ++ slash :: stem ++ dot :: ext) = stem ++ dot :: ext
  ∧ getFileName (stem ++ dot :: ext) = stem ++ dot :: ext.
Proof.
  intros Hstem Hext.
  assert (slash ∉ stem ++ dot :: ext) as Hname.
  { rewrite elem_of_app, elem_of_cons. by intros [?|[?|?]]. }
  split; [|by apply getFileName_no_slash].
  apply getFileName_after_slash; [done|]. by destruct stem.
Qed.

(** C7. From any state the program can be in, a batch that is accepted and
    whose command then resolves puts one new record at the head of the
    history.  For a batch of several files the record is named
    "archive.zip".  For a single file the directories of the path are
    dropped, and the name that is left, when it ends in a dot and an
    extension, has that extension replaced by the [file_type] of the result:
    the file [stem.ext], dropped bare or from any directory, gives the record
    named [stem.file_type]. *)
Theorem display_name (saved : Saved) (events : list Event)
    (paths : list jsstring) (now : Z) (result : DropResult) (idNow tsNow : Z) :
  let a := run (mount saved) events in
  Accepts a paths now →
  let a' := run a [DragDrop paths now; UploadResolves 0 result idNow tsNow] in
  ∃ record,
    uploads a' = take 10 (record :: uploads a)
    ∧ state a' = Success
    ∧ UploadItem.url record = DropResult.url result
    ∧ ((1 < length paths)%nat → UploadItem.name record = u16 "archive.zip")
    ∧ (∀ path stem ext,
         paths = [path] → getFileName path = stem ++ dot :: ext →
         ext ≠ [] → dot ∉ ext →
         UploadItem.name record
         = stem ++ u16 "." ++ DropResult.file_type result)
    ∧ (∀ dir stem ext,
         paths = [dir ++ slash :: stem ++ dot :: ext]
         ∨ paths = [stem ++ dot :: ext] →
         slash ∉ stem → slash ∉ ext → ext ≠ [] → dot ∉ ext →
         UploadItem.name record
         = stem ++ u16 "." ++ DropResult.file_type result).
Proof.
  intros a Hacc a'. assert (Guarded a) as Ha by apply Guarded_run, Guarded_mount.
  pose proof (guard_flight _ Ha) as Hfl. rewrite (acc_guard _ _ _ Hacc) in Hfl.
  apply nil_length_inv in Hfl.
  exists (newUpload paths result idNow tsNow). subst a'.
  unfold run. cbn [foldl]. rewrite (step_accepts _ _ _ Hacc).
  simpl. rewrite Hfl. simpl. repeat split.
  - apply displayName_archive.
  - intros path stem ext ->. apply displayName_single.
  - intros dir stem ext Hpaths Hstem Hext Hne Hdot.
    destruct (getFileName_of_path dir stem ext Hstem Hext) as [Hdir Hbare].
    destruct Hpaths as [->| ->]; by apply (displayName_single _ stem ext).
Qed.

End ControllerFacts.

(** ** The settings panel *)

Section SettingsFacts.

Import Settings.

Lemma truthy_cons (s : jsstring) : truthy s = true ↔ s ≠ [].
Proof. by destruct s. Qed.

Lemma change_resets p f v :
  f ≠ PublicUrlBase → v ≠ getField f p →
  validated (change f v p) = false ∧ error (change f v p) = [].
Proof.
  intros Hf Hv. unfold change.
  rewrite bool_decide_eq_false_2; [done|].
  destruct f; try done; unfold deps, setField, getField in *; simpl;
    intros ?; simplify_eq.
Qed.

Lemma change_public_url p v :
  validated (change PublicUrlBase v p) = validated p
  ∧ error (change PublicUrlBase v p) = error p.
Proof. unfold change. by rewrite bool_decide_eq_true_2. Qed.

Lemma handleSave_missing p f : getField f p = [] → refuses p MissingFields.
Proof.
  intros Hf. unfold refuses, handleSave.
  destruct f; unfold getField in Hf; rewrite Hf; simpl;
    by rewrite ?orb_true_r.
Qed.

Lemma handleSave_not_validated p :
  (∀ f, getField f p ≠ []) → validated p = false → refuses p NotValidated.
Proof.
  intros Hall Hv. unfold refuses, handleSave.
  pose proof (Hall AccountId). pose proof (Hall BucketName).
  pose proof (Hall AccessKey). pose proof (Hall SecretKey).
  pose proof (Hall PublicUrlBase). unfold getField in *.
  repeat match goal with H : _ ≠ [] |- _ => apply truthy_cons in H; rewrite H; clear H end.
  simpl. by rewrite Hv.
Qed.

Lemma handleSave_refuses p : validated p = false → ∃ e, refuses p e.
Proof.
  intros Hv. unfold refuses, handleSave. destruct (_ || _).
  - by exists MissingFields.
  - exists NotValidated. by rewrite Hv.
Qed.

Lemma validated_stays_false p e :
  (∀ i, e ≠ Resolves i) → validated p = false → validated (step p e) = false.
Proof.
  intros He Hv. destruct e; simpl.
  - unfold change. by case_bool_decide.
  - unfold handleValidate. by destruct (_ || _).
  - unfold handleSave. destruct (_ || _); [done|]. by rewrite Hv.
  - by destruct (He i).
  - destruct (awaiting p !! i) as [[]|]; done.
Qed.

Lemma validated_stays_false_run p events :
  Forall (λ e, ∀ i, e ≠ Resolves i) events → validated p = false →
  validated (run p events) = false.
Proof.
  intros He. revert p. induction He as [|e events He _ IH]; intros p Hv; [done|].
  simpl. apply IH. by apply validated_stays_false.
Qed.

(** C6, as the program has it.  Changing the account id, the bucket name, the
    access key or the secret key clears the validated flag and the error at
    once; changing the public URL base clears neither.  [handleSave] refuses
    with [MissingFields] when one of the five fields is empty and otherwise,
    when the validated flag is clear, with [NotValidated]; a refusal shows
    the message and sends no command.  Once clear, the flag stays clear until
    a command resolves, so after a change of one of the four fields saving is
    refused until then. *)
Theorem credentials_gate (p : Panel) :
  (∀ f v, f ≠ PublicUrlBase → v ≠ getField f p →
     validated (change f v p) = false ∧ error (change f v p) = [])
  ∧ (∀ v, validated (change PublicUrlBase v p) = validated p)
  ∧ ((∃ f, getField f p = []) →
     refuses p MissingFields ∧ invoked (handleSave p) = invoked p)
  ∧ ((∀ f, getField f p ≠ []) → validated p = false →
     refuses p NotValidated ∧ invoked (handleSave p) = invoked p)
  ∧ (∀ events,
       validated p = false → Forall (λ e, ∀ i, e ≠ Resolves i) events →
       validated (run p events) = false
       ∧ ∃ e, refuses (run p events) e).
Proof.
  split; [apply change_resets|]. split; [apply change_public_url|].
  split; [|split].
  - intros [f Hf]. pose proof (handleSave_missing p f Hf) as Href.
    split; [done|]. by rewrite Href.
  - intros Hall Hv. pose proof (handleSave_not_validated p Hall Hv) as Href.
    split; [done|]. by rewrite Href.
  - intros events Hv He.
    pose proof (validated_stays_false_run p events He Hv) as Hv'.
    split; [done|]. by apply handleSave_refuses.
Qed.

End SettingsFacts.

(** * More properties *)

(** ** Paths, names and the validator *)

Section MoreValidatorFacts.

Context {engine : Engine}.

Lemma validateLoop_valid paths :
  valid (validateLoop paths) = true ↔ Forall (λ p, ¬ Unsupported p) paths.
Proof.
  split; [|by intros ->%validateLoop_accepts].
  induction paths as [|p paths IH]; simpl; [done|].
  destruct (truthy _ && _) eqn:E; [done|].
  intros H. constructor; [|by apply IH].
  intros Hbad%offender_iff. congruence.
Qed.

Lemma validateLoop_app paths1 paths2 :
  validateLoop (paths1 ++ paths2)
  = if valid (validateLoop paths1) then validateLoop paths2
    else validateLoop paths1.
Proof.
  induction paths1 as [|p paths1 IH]; simpl; [done|].
  by destruct (truthy _ && _).
Qed.

Lemma validateFiles_in_range paths :
  paths ≠ [] → (length paths ≤ MAX_FILES)%nat →
  validateFiles paths = validateLoop paths.
Proof.
  intros Hne Hlen. unfold validateFiles.
  destruct paths as [|p paths]; [done|]. simpl Nat.eqb. cbv iota.
  by replace (MAX_FILES <? length _)%nat with false
    by (symmetry; apply Nat.ltb_ge; lia).
Qed.

Lemma errorMessage_nonempty e : errorMessage e ≠ [].
Proof. by destruct e. Qed.

(** X1. [validateFiles] accepts a batch exactly when it is non-empty, holds
    at most 50 paths, and none of its paths has a non-empty extension outside
    the allow-list. *)
Theorem validateFiles_valid_iff (paths : list jsstring) :
  valid (validateFiles paths) = true
  ↔ paths ≠ [] ∧ (length paths ≤ 50)%nat ∧ Forall (λ p, ¬ Unsupported p) paths.
Proof.
  split.
  - unfold validateFiles, MAX_FILES.
    destruct paths as [|p paths]; [done|]. simpl Nat.eqb. cbv iota.
    destruct (Nat.ltb_spec 50 (length (p :: paths))) as [|Hlen]; [done|].
    intros Hall%validateLoop_valid. done.
  - intros (Hne & Hlen & Hall). rewrite validateFiles_in_range by done.
    by apply validateLoop_valid.
Qed.

(** X2. The outcome of [validateFiles] is well formed: an accepted batch
    carries no error, and a refused one carries the non-empty message of one
    of the three kinds of refusal, so the [validation.error!] of the caller
    never meets [undefined]. *)
Theorem validateFiles_error (paths : list jsstring) :
  (valid (validateFiles paths) = true ∧ error (validateFiles paths) = None)
  ∨ (valid (validateFiles paths) = false
     ∧ ∃ e, validateFiles paths = failWith e
          ∧ error (validateFiles paths) = Some (errorMessage e)
          ∧ errorMessage e ≠ []).
Proof.
  assert (∀ l, (valid (validateLoop l) = true ∧ error (validateLoop l) = None)
               ∨ (valid (validateLoop l) = false
                  ∧ ∃ e, validateLoop l = failWith e
                       ∧ error (validateLoop l) = Some (errorMessage e)
                       ∧ errorMessage e ≠ [])) as Hloop.
  { induction l as [|p l IH]; simpl; [by left|].
    destruct (truthy _ && _); [|done].
    right. split; [done|]. eexists. split; [done|].
    split; [done|]. apply errorMessage_nonempty. }
  unfold validateFiles. destruct (length paths =? 0)%nat.
  { right. split; [done|]. exists EmptyBatch. split; [done|].
    split; [done|]. apply errorMessage_nonempty. }
  destruct (MAX_FILES <? length paths)%nat; [|apply Hloop].
  right. split; [done|]. exists (TooManyFiles MAX_FILES). split; [done|].
  split; [done|]. apply errorMessage_nonempty.
Qed.

(** X3. Batches compose.  For two non-empty batches that together hold at
    most 50 paths, the joined batch is accepted exactly when both are, and
    when the first is refused the joined batch is refused with the very
    outcome of the first: the first offender is reported. *)
Theorem validateFiles_app (paths1 paths2 : list jsstring) :
  paths1 ≠ [] → paths2 ≠ [] → (length (paths1 ++ paths2) ≤ 50)%nat →
  valid (validateFiles (paths1 ++ paths2))
  = valid (validateFiles paths1) && valid (validateFiles paths2)
  ∧ (valid (validateFiles paths1) = false →
     validateFiles (paths1 ++ paths2) = validateFiles paths1)
  ∧ (valid (validateFiles paths1) = true →
     validateFiles (paths1 ++ paths2) = validateFiles paths2).
Proof.
  intros Hne1 Hne2 Hlen. rewrite length_app in Hlen.
  rewrite (validateFiles_in_range (paths1 ++ paths2));
    [|by destruct paths1|rewrite length_app; unfold MAX_FILES; lia].
  rewrite (validateFiles_in_range paths1) by (done || unfold MAX_FILES; lia).
  rewrite (validateFiles_in_range paths2) by (done || unfold MAX_FILES; lia).
  rewrite validateLoop_app.
  destruct (valid (validateLoop paths1)) eqn:E; simpl; by rewrite ?E.
Qed.

Lemma no_allowed_extension_has_slash ext :
  slash ∈ ext → ext ∉ ALLOWED_EXTENSIONS.
Proof.
  intros Hslash Hin. apply elem_of_elements in Hin.
  assert (Forall (λ e, slash ∉ e) (elements ALLOWED_EXTENSIONS)) as Hall.
  { apply (bool_decide_unpack _). by vm_compute. }
  rewrite Forall_forall in Hall. by apply (Hall ext).
Qed.

(** X4. The extension is taken from the whole path, not from the file name.
    When the last dot of a path lies in a directory name, the "extension" is
    everything after that dot, slash and file name included; as no allowed
    extension holds a slash, a file without extension in such a directory is
    refused (for an engine whose [toLowerCase] keeps the slash). *)
Theorem getExtension_dotted_directory (dir rest name : jsstring) :
  let path := dir ++ dot :: rest ++ slash :: name in
  dot ∉ rest → dot ∉ name →
  getExtension path = toLowerCase (rest ++ slash :: name)
  ∧ (slash ∈ toLowerCase (rest ++ slash :: name) →
     validateFiles [path]
     = failWith (UnsupportedType (toLowerCase (rest ++ slash :: name))
                                 (getFileName path))).
Proof.
  intros path Hrest Hname.
  assert (dot ∉ rest ++ slash :: name) as Hdot.
  { rewrite elem_of_app, elem_of_cons. intros [?|[?|?]]; done. }
  pose proof (getExtension_after_dot dir _ Hdot) as Hext.
  split; [done|]. intros Hslash. subst path.
  rewrite validateFiles_in_range by (done || (simpl; unfold MAX_FILES; lia)).
  cbn [validateLoop].
  rewrite (proj2 (offender_iff _)); [by rewrite Hext|].
  unfold Unsupported. rewrite Hext. split.
  - intros Hnil. rewrite Hnil in Hslash. by apply elem_of_nil in Hslash.
  - by apply no_allowed_extension_has_slash.
Qed.

Lemma last_sep (sep : N) (s : jsstring) :
  sep ∈ s → ∃ pre suf, s = pre ++ sep :: suf ∧ sep ∉ suf.
Proof.
  induction s as [|c s IH]; [by intros ?%elem_of_nil|].
  destruct (decide (sep ∈ s)) as [Hin|Hnot].
  - intros _. destruct (IH Hin) as (pre & suf & -> & Hsuf).
    by exists (c :: pre), suf.
  - intros [->|?]%elem_of_cons; [|done]. by exists [], s.
Qed.

Lemma getFileName_trailing_slash dir :
  getFileName (dir ++ [slash]) = dir ++ [slash].
Proof.
  unfold getFileName.
  destruct (pop_split_after slash dir []) as [-> _]; [apply not_elem_of_nil|].
  done.
Qed.

(** X5. [getFileName] gives the text after the last slash; a path that ends
    in a slash, or has none, is returned whole.  Hence the result is empty
    only for the empty path, and taking the file name twice is taking it
    once. *)
Theorem getFileName_spec (path : jsstring) :
  (slash ∉ path → getFileName path = path)
  ∧ (∀ dir name, path = dir ++ slash :: name → slash ∉ name →
       getFileName path = if truthy name then name else path)
  ∧ (getFileName path = [] ↔ path = [])
  ∧ getFileName (getFileName path) = getFileName path.
Proof.
  split; [apply getFileName_no_slash|]. split.
  { intros dir name -> Hs. destruct name as [|c name].
    - apply getFileName_trailing_slash.
    - by apply getFileName_after_slash. }
  destruct (decide (slash ∈ path)) as [Hin|Hnot].
  - destruct (last_sep _ _ Hin) as (dir & name & -> & Hs).
    destruct name as [|c name].
    + rewrite !getFileName_trailing_slash. done.
    + rewrite getFileName_after_slash by done. split.
      * split; [done|by destruct dir].
      * by apply getFileName_no_slash.
  - rewrite !getFileName_no_slash by done. done.
Qed.

Lemma stripExtension_no_dot name : dot ∉ name → stripExtension name = name.
Proof.
  induction name as [|c name IH]; [done|].
  intros [Hc Hname]%not_elem_of_cons. simpl. rewrite IH by done.
  by destruct (N.eqb_spec c dot).
Qed.

Lemma stripExtension_trailing_dot stem :
  stripExtension (stem ++ [dot]) = stem ++ [dot].
Proof.
  induction stem as [|c stem IH]; [done|]. simpl. rewrite IH.
  rewrite (bool_decide_eq_false_2 (dot ∉ stem ++ [dot])).
  - by rewrite andb_false_r.
  - intros Hnot. apply Hnot. set_solver.
Qed.

(** X6. What [replace(/\.[^.]+$/, "")] removes: a final dot together with the
    non-empty, dot-free text after it, and nothing else.  A name without a
    dot, or ending in a dot, is left whole. *)
Theorem stripExtension_spec (name : jsstring) :
  (dot ∉ name → stripExtension name = name)
  ∧ (∀ stem, name = stem ++ [dot] → stripExtension name = name)
  ∧ (∀ stem ext, name = stem ++ dot :: ext → ext ≠ [] → dot ∉ ext →
       stripExtension name = stem)
  ∧ ∃ removed, name = stripExtension name ++ removed
       ∧ (removed = [] ∨ ∃ ext, removed = dot :: ext ∧ ext ≠ [] ∧ dot ∉ ext).
Proof.
  split; [apply stripExtension_no_dot|].
  split; [intros stem ->; apply stripExtension_trailing_dot|].
  split; [intros stem ext ->; apply stripExtension_after_dot|].
  destruct (decide (dot ∈ name)) as [Hin|Hnot].
  - destruct (last_sep _ _ Hin) as (stem & ext & -> & Hext).
    destruct ext as [|c ext].
    + exists []. rewrite stripExtension_trailing_dot, app_nil_r. auto.
    + exists (dot :: c :: ext). rewrite stripExtension_after_dot by done.
      split; [done|]. right. by exists (c :: ext).
  - exists []. rewrite stripExtension_no_dot, app_nil_r by done. auto.
Qed.

(** X7. The display name of a single file that has no extension to replace
    (no dot in its name, or a name ending in a dot) is the whole file name
    followed by a dot and the reported file type. *)
Theorem displayName_no_extension (path : jsstring) (result : DropResult) :
  dot ∉ getFileName path ∨ (∃ stem, getFileName path = stem ++ [dot]) →
  displayName [path] result
  = getFileName path ++ u16 "." ++ DropResult.file_type result.
Proof.
  intros H. unfold displayName. simpl.
  destruct H as [H|[stem H]].
  - by rewrite stripExtension_no_dot.
  - by rewrite H, stripExtension_trailing_dot.
Qed.

End MoreValidatorFacts.

(** ** The session controller, further *)

Section MoreControllerFacts.

Context {engine : Engine}.

Ltac handlers :=
  unfold dropListener, processFiles, dragOverListener, dragLeaveListener,
    handleKeyDown, deleteUpload, clearUploads, runCallback in *.

Lemma validateFiles_valid_inv paths :
  valid (validateFiles paths) = true →
  paths ≠ [] ∧ (length paths ≤ MAX_FILES)%nat.
Proof.
  unfold validateFiles. destruct paths as [|p paths]; [done|].
  simpl Nat.eqb. cbv iota.
  destruct (Nat.ltb_spec MAX_FILES (length (p :: paths))); [done|]. done.
Qed.

(** X9. The three gates of a drop apply in a fixed order: debounce, then the
    guard, then the validator.  So every drop does exactly one of four
    things: nothing at all (no path, or inside the debounce window); only
    restart the debounce window (an upload is in flight; no error is shown
    even for a batch the validator would refuse); show the validator's
    error and schedule its reset; or start the upload. *)
Theorem drop_outcomes (a : App) (paths : list jsstring) (now : Z) :
  let a' := step a (DragDrop paths now) in
  ((paths = [] ∨ now - lastDropTime a < DEBOUNCE_MS) ∧ a' = a)
  ∨ (paths ≠ [] ∧ DEBOUNCE_MS ≤ now - lastDropTime a
     ∧ isProcessing a = true ∧ a' = set_lastDropTime now a)
  ∨ (Refuses a paths now ∧ a' = refused paths now a)
  ∨ (Accepts a paths now ∧ a' = started paths now a).
Proof.
  intros a'. subst a'.
  destruct paths as [|p paths]; [by left; split; [left|]|].
  destruct (Z.lt_ge_cases (now - lastDropTime a) DEBOUNCE_MS) as [Hlt|Hge].
  { left. split; [by right|]. by apply step_debounced. }
  right. destruct (isProcessing a) eqn:Hp.
  { left. repeat split; try done. simpl. unfold dropListener, processFiles.
    simpl length. simpl Nat.ltb. cbv iota.
    replace (now - lastDropTime a <? DEBOUNCE_MS) with false
      by (symmetry; apply Z.ltb_ge; lia).
    cbn [isProcessing set_lastDropTime]. by rewrite Hp. }
  right. destruct (valid (validateFiles (p :: paths))) eqn:Hv.
  - right. assert (Accepts a (p :: paths) now) as Hacc by by split.
    split; [done|]. by apply step_accepts.
  - left. assert (Refuses a (p :: paths) now) as Href by by split.
    split; [done|]. by apply step_refuses.
Qed.

Lemma Sendable_step a e :
  Forall Sendable (invoked a) → Forall Sendable (invoked (step a e)).
Proof.
  intros Ha. destruct e; simpl.
  - handlers. destruct (0 <? length paths)%nat; [|done].
    destruct (now - lastDropTime a <? DEBOUNCE_MS); [done|]. simpl.
    destruct (isProcessing a); [done|].
    destruct (length paths =? 0)%nat; [done|].
    destruct (valid (validateFiles paths)) eqn:Hv; simpl; [|done].
    apply Forall_app. split; [done|]. constructor; [|done].
    destruct (validateFiles_valid_inv _ Hv). by repeat split.
  - handlers. by destruct (negb _).
  - handlers. by destruct (negb _).
  - by destruct (awaiting a !! i).
  - by destruct (awaiting a !! i).
  - done.
  - destruct (timers a !! i) as [[[] ?]|]; done.
  - handlers. by case_bool_decide.
  - handlers. destruct shiftKey; simpl; [|done].
    destruct (UploadItem.r2Key item) as [key|]; simpl; [|done].
    destruct (truthy key) eqn:Hkey; simpl; [|done].
    destruct (UploadItem.isDemo item); simpl; [done|].
    apply Forall_app. split; [done|]. constructor; [|done].
    simpl. by destruct key.
  - done.
  - constructor.
Qed.

(** X10. Nothing unchecked goes to the backend.  Every [process_and_upload]
    the component ever sends carries a batch the validator accepted (so
    between 1 and 50 paths), and every [delete_from_r2] carries a non-empty
    key. *)
Theorem commands_sendable (saved : Saved) (events : list Event) :
  Forall Sendable (invoked (run (mount saved) events)).
Proof.
  assert (∀ a, Forall Sendable (invoked a) →
               Forall Sendable (invoked (run a events))) as Hrun.
  { induction events as [|e events IH]; intros a Ha; [done|].
    apply IH. by apply Sendable_step. }
  apply Hrun. constructor.
Qed.

Lemma ShowsProcessing_step a e :
  Guarded a → ShowsProcessing a → ShowsProcessing (step a e).
Proof.
  intros [Hfl Hst] Ha. unfold ShowsProcessing in *. destruct e; simpl.
  - handlers. destruct (0 <? length paths)%nat; [|done].
    destruct (now - lastDropTime a <? DEBOUNCE_MS); [done|]. simpl.
    destruct (isProcessing a) eqn:Hp; [done|].
    destruct (length paths =? 0)%nat; [done|].
    destruct (valid (validateFiles paths)); simpl; [|done].
    intros _. exists paths. apply nil_length_inv in Hfl. by rewrite Hfl.
  - handlers. destruct (isProcessing a); simpl; done.
  - handlers. destruct (isProcessing a) eqn:Hp; simpl; [done|].
    intros HP. by rewrite Hst in Hp.
  - by destruct (awaiting a !! i).
  - by destruct (awaiting a !! i).
  - done.
  - destruct (timers a !! i) as [[[] ?]|]; done.
  - handlers. by case_bool_decide.
  - handlers. by destruct (_ && _).
  - done.
  - done.
Qed.

Lemma ShowsProcessing_run a events :
  Guarded a → ShowsProcessing a → ShowsProcessing (run a events).
Proof.
  revert a. induction events as [|e events IH]; intros a Hg Ha; [done|].
  apply IH; [by apply Guarded_step|by apply ShowsProcessing_step].
Qed.

(** X11. Whenever the display says "processing", exactly one command is
    awaited, the status line counts the files of that very batch and the
    file name shown is the name of its first file. *)
Theorem processing_display (saved : Saved) (events : list Event) :
  let a := run (mount saved) events in
  state a = Processing →
  ∃ paths, awaiting a = [paths]
    ∧ isProcessing a = true
    ∧ statusText a = processingText paths
    ∧ currentFileName a = default [] (head (getFileName <$> paths)).
Proof.
  intros a HP.
  assert (Guarded a) as Hg by apply Guarded_run, Guarded_mount.
  destruct (ShowsProcessing_run (mount saved) events) as (paths & ? & ? & ?);
    [apply Guarded_mount|done|done|].
  exists paths. repeat split; try done. by apply (guard_state _ Hg).
Qed.

Lemma elem_of_delete_other {A} (l : list A) (j : nat) (t u : A) :
  t ∈ l → l !! j = Some u → t ≠ u → t ∈ delete j l.
Proof.
  intros [i Hi]%list_elem_of_lookup_1 Hj Hne.
  destruct (decide (i < j)%nat) as [Hlt|Hge].
  - apply (list_elem_of_lookup_2 _ i). by rewrite list_lookup_delete_lt.
  - assert (i ≠ j) by (intros ->; congruence).
    destruct i as [|i]; [lia|].
    apply (list_elem_of_lookup_2 _ i).
    rewrite list_lookup_delete_ge by lia. done.
Qed.

Lemma SelfClearing_step a e : SelfClearing a → SelfClearing (step a e).
Proof.
  intros Ha. unfold SelfClearing, resets in *. destruct e; simpl.
  - handlers. destruct (0 <? length paths)%nat; [|done].
    destruct (now - lastDropTime a <? DEBOUNCE_MS); [done|]. simpl.
    destruct (isProcessing a) eqn:Hp; [done|].
    destruct (length paths =? 0)%nat; [done|].
    destruct (valid (validateFiles paths)); simpl; [by intros [|]|].
    intros _. exists {| callback := ResetStatus; delay := 3000 |}.
    split; [set_solver|done].
  - handlers. destruct (negb _); simpl; [by intros [|]|done].
  - handlers. destruct (negb _); simpl; [by intros [|]|done].
  - destruct (awaiting a !! i); [|done]. simpl. intros _.
    exists {| callback := ResetSession; delay := 2000 |}.
    split; [set_solver|done].
  - destruct (awaiting a !! i); [|done]. simpl. intros _.
    exists {| callback := ResetSession; delay := 3000 |}.
    split; [set_solver|done].
  - done.
  - destruct (timers a !! i) as [[cb ms]|] eqn:Hi; [|done].
    destruct cb; simpl; try by intros [|].
    intros Hs. destruct (Ha Hs) as (t & Ht & Hr). exists t. split; [|done].
    eapply elem_of_delete_other; [done..|]. by intros ->.
  - handlers. by case_bool_decide.
  - handlers. by destruct (_ && _).
  - done.
  - by intros [|].
Qed.

Lemma SelfClearing_run a events : SelfClearing a → SelfClearing (run a events).
Proof.
  revert a. induction events as [|e events IH]; intros a Ha; [done|].
  apply IH. by apply SelfClearing_step.
Qed.

(** X12. An outcome never stays on display for want of a timer.  Whenever
    the display shows success or error, a reset timer is scheduled, and when
    it fires the display is idle and the status line empty. *)
Theorem outcome_display_self_clears (saved : Saved) (events : list Event) :
  let a := run (mount saved) events in
  state a = Success ∨ state a = Error →
  ∃ i t, timers a !! i = Some t ∧ resets t
    ∧ state (step a (TimerFires i)) = Idle
    ∧ statusText (step a (TimerFires i)) = [].
Proof.
  intros a Hs.
  assert (SelfClearing a) as Ha.
  { apply SelfClearing_run. by intros [|]. }
  destruct (Ha Hs) as (t & [i Hi]%list_elem_of_lookup_1 & Hr).
  exists i, t. split; [done|]. split; [done|]. simpl. rewrite Hi.
  unfold resets in Hr. by destruct t as [[] ?].
Qed.

(** X13. A timer, once scheduled, is never cancelled.  Short of a relaunch,
    an event other than a timer firing leaves every scheduled timer in place
    (it can only schedule more, at the end), and a firing removes the fired
    timer and no other.  In particular each success adds its own 10-second
    hide timer to whatever is already scheduled. *)
Theorem timers_never_cancelled (a : App) (e : Event) :
  (e ≠ Relaunch → (∀ i, e ≠ TimerFires i) →
     timers a `prefix_of` timers (step a e))
  ∧ (∀ i, e = TimerFires i → timers (step a e) = delete i (timers a))
  ∧ (∀ i paths result idNow tsNow,
       e = UploadResolves i result idNow tsNow →
       awaiting a !! i = Some paths →
       timers (step a e)
       = timers a ++ [{| callback := ResetSession; delay := 2000 |};
                      {| callback := HideWindow; delay := 10000 |}]).
Proof.
  split; [|split].
  - intros Hr Ht. destruct e; try done; simpl; handlers.
    + destruct (0 <? length paths)%nat; [|done].
      destruct (now - lastDropTime a <? DEBOUNCE_MS); [done|]. simpl.
      destruct (isProcessing a); [done|].
      destruct (length paths =? 0)%nat; [done|].
      destruct (negb _); simpl; [|done]. by apply prefix_app_r.
    + by destruct (negb _).
    + by destruct (negb _).
    + destruct (awaiting a !! i); [|done]. simpl.
      rewrite <- app_assoc. by apply prefix_app_r.
    + destruct (awaiting a !! i); [|done]. simpl. by apply prefix_app_r.
    + by destruct (Ht i).
    + by case_bool_decide.
    + by destruct (_ && _).
  - intros i ->. simpl. destruct (timers a !! i) as [[[] ?]|] eqn:Hi; try done.
    symmetry. apply lookup_ge_None in Hi. revert i Hi.
    induction (timers a) as [|t l IH]; intros [|i] Hi; simpl in *;
      try done; try lia. f_equal. apply IH. lia.
  - intros i paths result idNow tsNow -> Hi. simpl. rewrite Hi. simpl.
    by rewrite <- app_assoc.
Qed.

Lemma Persisted_step a e :
  storage a = Json (uploads a) → storage (step a e) = Json (uploads (step a e)).
Proof.
  intros Ha. destruct e; simpl; handlers; try done.
  - destruct (0 <? length paths)%nat; [|done].
    destruct (now - lastDropTime a <? DEBOUNCE_MS); [done|]. simpl.
    destruct (isProcessing a); [done|].
    destruct (length paths =? 0)%nat; [done|].
    by destruct (negb _).
  - by destruct (negb _).
  - by destruct (negb _).
  - by destruct (awaiting a !! i).
  - by destruct (awaiting a !! i).
  - destruct (timers a !! i) as [[[] ?]|]; done.
  - by case_bool_decide.
  - by destruct (_ && _).
Qed.

Lemma Persisted_run a events :
  storage a = Json (uploads a) →
  storage (run a events) = Json (uploads (run a events)).
Proof.
  revert a. induction events as [|e events IH]; intros a Ha; [done|].
  apply IH. by apply Persisted_step.
Qed.

(** X14. The history survives a relaunch and nothing else does.  After any
    run, quitting and starting again gives the same history (the slot was
    rewritten at every change), with the display idle, the guard clear, the
    debounce clock at zero, and no command awaited or timer scheduled. *)
Theorem relaunch_restores_history (saved : Saved) (events : list Event) :
  let a := run (mount saved) events in
  let a' := step a Relaunch in
  uploads a' = uploads a
  ∧ a' = mount (Json (uploads a))
  ∧ state a' = Idle ∧ isProcessing a' = false ∧ lastDropTime a' = 0
  ∧ awaiting a' = [] ∧ timers a' = [].
Proof.
  intros a a'.
  assert (storage a = Json (uploads a)) as Hs by by apply Persisted_run.
  subst a'. simpl. by rewrite Hs.
Qed.

Lemma filter_keeps_all {A} (P : A → Prop) `{∀ x, Decision (P x)} (l : list A) :
  Forall P l → filter P l = l.
Proof.
  induction 1 as [|x l Hx _ IH]; [done|].
  rewrite filter_cons_True by done. by rewrite IH.
Qed.

(** X15. Removal goes by id.  A click on the bin of [item] keeps, in their
    order, exactly the records whose id differs from the item's: if no
    record has that id the history is unchanged, every record that shares
    the id goes, and removing the same item again changes nothing more. *)
Theorem deleteUpload_by_id (a : App) (shiftKey shiftKey' : bool) (item : UploadItem) :
  let a' := step a (DeleteClick shiftKey item) in
  (∀ u, u ∈ uploads a' ↔ u ∈ uploads a ∧ UploadItem.id u ≠ UploadItem.id item)
  ∧ uploads a' `sublist_of` uploads a
  ∧ (Forall (λ u, UploadItem.id u ≠ UploadItem.id item) (uploads a) →
     uploads a' = uploads a)
  ∧ (item ∈ uploads a → (length (uploads a') < length (uploads a))%nat)
  ∧ uploads (step a' (DeleteClick shiftKey' item)) = uploads a'.
Proof.
  intros a'.
  assert (uploads a'
          = filter (λ u, UploadItem.id u ≠ UploadItem.id item) (uploads a)) as Hup.
  { subst a'. simpl. unfold deleteUpload. by destruct (_ && _). }
  assert (uploads (step a' (DeleteClick shiftKey' item))
          = filter (λ u, UploadItem.id u ≠ UploadItem.id item) (uploads a')) as Hup'.
  { simpl. unfold deleteUpload. by destruct (_ && _). }
  rewrite Hup', Hup. split; [|split; [|split; [|split]]].
  - intros u. rewrite list_elem_of_filter. tauto.
  - apply sublist_filter.
  - apply filter_keeps_all.
  - intros Hin. eapply length_filter_lt; [done|]. by intros H.
  - rewrite list_filter_filter. apply list_filter_iff. tauto.
Qed.

(** X16. The key sent for deletion is the key the upload reported.  For the
    record made from a result, a shift-click on its bin sends
    [delete_from_r2] with the result's [r2_key] when that key is non-empty
    and the result is not a demo one; for a demo result, or one without
    key, it sends nothing. *)
Theorem delete_sends_uploaded_key (a : App) (paths : list jsstring)
    (result : DropResult) (idNow tsNow : Z) :
  let record := newUpload paths result idNow tsNow in
  let a' := step a (DeleteClick true record) in
  (∀ key, DropResult.r2_key result = Some key → key ≠ [] →
          DropResult.is_demo result = false →
          invoked a' = invoked a ++ [delete_from_r2 key])
  ∧ (DropResult.is_demo result = true
     ∨ DropResult.r2_key result = None
     ∨ DropResult.r2_key result = Some [] →
     invoked a' = invoked a).
Proof.
  intros record a'. subst a' record. simpl. unfold deleteUpload. simpl. split.
  - intros key -> Hkey ->. simpl. destruct key; [done|]. done.
  - intros [->|[->| ->]]; simpl; [|done|done].
    by rewrite andb_false_r.
Qed.


End MoreControllerFacts.

(** ** The settings panel and the shell, further

    The runs below are those of one showing of the panel.  The load of saved
    credentials at mount is not among the events; it sets the five fields and
    the validated flag and touches neither the two busy flags, nor the pending
    commands, nor the log, which is all the invariants below speak of. *)

Section MoreSettingsFacts.

Import Settings.

Local Arguments sameHandler : simpl never.

Lemma truthy_nil' (s : jsstring) : truthy s = false → s = [].
Proof. by destruct s. Qed.

Lemma Complete_step p e :
  Forall Complete (invoked p) → Forall Complete (invoked (step p e)).
Proof.
  intros Hp. destruct e; simpl.
  - unfold change. by case_bool_decide.
  - unfold handleValidate.
    destruct (truthy (accessKey p)) eqn:H1, (truthy (secretKey p)) eqn:H2,
      (truthy (bucketName p)) eqn:H3, (truthy (accountId p)) eqn:H4;
      simpl; try done.
    apply Forall_app. split; [done|]. constructor; [|done]. simpl.
    apply truthy_cons in H1, H2, H3, H4. repeat split; try done.
    by destruct (publicUrlBase p).
  - unfold handleSave.
    destruct (truthy (accessKey p)) eqn:H1, (truthy (secretKey p)) eqn:H2,
      (truthy (bucketName p)) eqn:H3, (truthy (accountId p)) eqn:H4,
      (truthy (publicUrlBase p)) eqn:H5; simpl; try done.
    destruct (validated p); simpl; [|done].
    apply Forall_app. split; [done|]. constructor; [|done]. simpl.
    by apply truthy_cons in H1, H2, H3, H4, H5.
  - destruct (awaiting p !! i) as [[]|]; done.
  - destruct (awaiting p !! i) as [[]|]; done.
Qed.

(** X18. The panel never sends an empty credential.  Whatever the user does,
    every [validate_r2_config] and every [set_r2_config] it sends has all five
    fields non-empty (an empty public URL base is replaced by a placeholder
    before validation). *)
Theorem settings_commands_complete (events : list Event) :
  Forall Complete (invoked (run initial events)).
Proof.
  assert (∀ p, Forall Complete (invoked p) →
               Forall Complete (invoked (run p events))) as Hrun.
  { induction events as [|e events IH]; intros p Hp; [done|].
    apply IH. by apply Complete_step. }
  apply Hrun. constructor.
Qed.

Lemma pending_delete w (l : list Waiting) i w' :
  l !! i = Some w' →
  length (filter (λ x, sameHandler w x = true) (delete i l))
  = (length (filter (λ x, sameHandler w x = true) l)
     - if sameHandler w w' then 1 else 0)%nat
  ∧ (sameHandler w w' = true →
     (1 ≤ length (filter (λ x, sameHandler w x = true) l))%nat).
Proof.
  revert i. induction l as [|x l IH]; intros [|i] Hi; simplify_eq/=.
  - destruct (sameHandler w w') eqn:E.
    + rewrite filter_cons_True by done. simpl. lia.
    + rewrite filter_cons_False by congruence. lia.
  - destruct (IH i Hi) as [IH1 IH2].
    destruct (decide (sameHandler w x = true)) as [Hx|Hx].
    + rewrite !filter_cons_True by done. simpl. rewrite IH1.
      split; [|lia]. destruct (sameHandler w w'); [|lia].
      specialize (IH2 eq_refl). lia.
    + rewrite !filter_cons_False by done. done.
Qed.

Lemma pending_app w (l : list Waiting) w' :
  length (filter (λ x, sameHandler w x = true) (l ++ [w']))
  = (length (filter (λ x, sameHandler w x = true) l)
     + if sameHandler w w' then 1 else 0)%nat.
Proof.
  rewrite filter_app, length_app. f_equal.
  destruct (sameHandler w w') eqn:E.
  - by rewrite filter_cons_True.
  - rewrite filter_cons_False by congruence. done.
Qed.

Lemma flags_step p de :
  pending InValidate p = (if validating p then 1 else 0)%nat →
  pending InSave p = (if saving p then 1 else 0)%nat →
  pending InValidate (uiStep p de) = (if validating (uiStep p de) then 1 else 0)%nat
  ∧ pending InSave (uiStep p de) = (if saving (uiStep p de) then 1 else 0)%nat.
Proof.
  intros Hv Hs. destruct de as [demo e]. unfold uiStep. simpl.
  destruct (enabled demo p e) eqn:Hen; [|done].
  unfold pending in *. destruct e; simpl in *.
  - unfold change. by case_bool_decide.
  - unfold testDisabled in Hen. apply negb_true_iff, orb_false_iff in Hen as [Hval _].
    rewrite Hval in Hv. unfold handleValidate.
    destruct (_ || _); simpl; [by rewrite Hval|].
    rewrite !pending_app, Hv, Hs. simpl. split; [done|lia].
  - unfold saveDisabled in Hen.
    apply negb_true_iff, orb_false_iff in Hen as [[Hsav _]%orb_false_iff _].
    rewrite Hsav in Hs. unfold handleSave.
    destruct (_ || _); simpl; [by rewrite Hsav|].
    destruct (negb _); simpl; [by rewrite Hsav|].
    rewrite !pending_app, Hv, Hs. simpl. split; [lia|done].
  - destruct (awaiting p !! i) as [w|] eqn:Hi; [|done].
    destruct (pending_delete InValidate _ _ _ Hi) as [Hd1 Hd1'].
    destruct (pending_delete InSave _ _ _ Hi) as [Hd2 Hd2'].
    destruct w; simpl in *; rewrite Hd1, Hd2, ?Hv, ?Hs.
    + specialize (Hd1' eq_refl). rewrite Hv in Hd1'.
      destruct (validating p); [|lia]. split; [done|lia].
    + specialize (Hd2' eq_refl). rewrite Hs in Hd2'.
      destruct (saving p); [|lia]. split; [lia|done].
  - destruct (awaiting p !! i) as [w|] eqn:Hi; [|done].
    destruct (pending_delete InValidate _ _ _ Hi) as [Hd1 Hd1'].
    destruct (pending_delete InSave _ _ _ Hi) as [Hd2 Hd2'].
    destruct w; simpl in *; rewrite Hd1, Hd2, ?Hv, ?Hs.
    + specialize (Hd1' eq_refl). rewrite Hv in Hd1'.
      destruct (validating p); [|lia]. split; [done|lia].
    + specialize (Hd2' eq_refl). rewrite Hs in Hd2'.
      destruct (saving p); [|lia]. split; [lia|done].
Qed.

(** X19. Driven through its controls, the panel has at most one validation
    and at most one save in flight: the "Testing..." flag is set exactly
    while one [validate_r2_config] is awaited, the "Saving..." flag exactly
    while one [set_r2_config] is, because each button is disabled while its
    flag is set and each handler clears its flag when its command settles. *)
Theorem settings_single_flight (events : list (bool * Event)) :
  let p := uiRun initial events in
  pending InValidate p = (if validating p then 1 else 0)%nat
  ∧ pending InSave p = (if saving p then 1 else 0)%nat.
Proof.
  assert (∀ p, pending InValidate p = (if validating p then 1 else 0)%nat →
               pending InSave p = (if saving p then 1 else 0)%nat →
               pending InValidate (uiRun p events)
               = (if validating (uiRun p events) then 1 else 0)%nat
               ∧ pending InSave (uiRun p events)
                 = (if saving (uiRun p events) then 1 else 0)%nat) as Hrun.
  { induction events as [|e events IH]; intros p Hv Hs; [done|].
    destruct (flags_step p e Hv Hs). by apply IH. }
  by apply Hrun.
Qed.

(** X20. Through the Save button the "test your credentials first" refusal
    cannot happen: the button is disabled while the validated flag is clear.
    A click on the enabled button either complains that a field is empty or
    sends [set_r2_config] with the five fields as shown, sets the saving flag
    and clears the error. *)
Theorem save_button_never_unvalidated (demo : bool) (p : Panel) :
  saveDisabled demo p = false →
  ¬ refuses p NotValidated
  ∧ ((refuses p MissingFields ∧ ∃ f, getField f p = [])
     ∨ (invoked (handleSave p)
        = invoked p
          ++ [set_r2_config
                {| access_key := accessKey p; secret_key := secretKey p;
                   bucket_name := bucketName p; account_id := accountId p;
                   public_url_base := publicUrlBase p |}]
        ∧ saving (handleSave p) = true ∧ error (handleSave p) = [])).
Proof.
  unfold saveDisabled. intros Hen.
  apply orb_false_iff in Hen as [[Hsav _]%orb_false_iff Hval%negb_false_iff].
  unfold refuses, handleSave. rewrite Hval.
  destruct (truthy (accessKey p)) eqn:H1; simpl;
    [|split; [intros Heq; by apply (f_equal error) in Heq
             |left; split; [done|exists AccessKey; by apply truthy_nil']]].
  destruct (truthy (secretKey p)) eqn:H2; simpl;
    [|split; [intros Heq; by apply (f_equal error) in Heq
             |left; split; [done|exists SecretKey; by apply truthy_nil']]].
  destruct (truthy (bucketName p)) eqn:H3; simpl;
    [|split; [intros Heq; by apply (f_equal error) in Heq
             |left; split; [done|exists BucketName; by apply truthy_nil']]].
  destruct (truthy (accountId p)) eqn:H4; simpl;
    [|split; [intros Heq; by apply (f_equal error) in Heq
             |left; split; [done|exists AccountId; by apply truthy_nil']]].
  destruct (truthy (publicUrlBase p)) eqn:H5; simpl;
    [|split; [intros Heq; by apply (f_equal error) in Heq
             |left; split; [done|exists PublicUrlBase; by apply truthy_nil']]].
  split; [|by right].
  intros Heq. apply (f_equal saving) in Heq. simpl in Heq. congruence.
Qed.

Lemma saves_app log c :
  saves (log ++ [c])
  = (saves log + match c with set_r2_config _ => 1 | _ => 0 end)%nat.
Proof.
  unfold saves. rewrite filter_app, length_app. f_equal. by destruct c.
Qed.

Lemma onSave_step p e :
  (onSaveCalls p + pending InSave p ≤ saves (invoked p))%nat →
  (onSaveCalls (step p e) + pending InSave (step p e)
   ≤ saves (invoked (step p e)))%nat.
Proof.
  intros Hp. unfold pending in *. destruct e; simpl.
  - unfold change. by case_bool_decide.
  - unfold handleValidate. destruct (_ || _); simpl; [done|].
    rewrite pending_app, saves_app. simpl. lia.
  - unfold handleSave. destruct (_ || _); simpl; [done|].
    destruct (negb _); simpl; [done|].
    rewrite pending_app, saves_app. simpl. lia.
  - destruct (awaiting p !! i) as [w|] eqn:Hi; [|done].
    destruct (pending_delete InSave _ _ _ Hi) as [Hd Hd'].
    destruct w; simpl in *; rewrite Hd; [lia|].
    specialize (Hd' eq_refl). lia.
  - destruct (awaiting p !! i) as [w|] eqn:Hi; [|done].
    destruct (pending_delete InSave _ _ _ Hi) as [Hd Hd'].
    destruct w; simpl in *; rewrite Hd; lia.
Qed.

(** X21. The parent is told of a save only for a [set_r2_config] that was
    sent and has resolved: the calls of [onSave], together with the saves
    still awaited, never outnumber the [set_r2_config] commands sent. *)
Theorem onSave_only_after_save (events : list Event) :
  let p := run initial events in
  (onSaveCalls p + pending InSave p ≤ saves (invoked p))%nat.
Proof.
  assert (∀ p, (onSaveCalls p + pending InSave p ≤ saves (invoked p))%nat →
               (onSaveCalls (run p events) + pending InSave (run p events)
                ≤ saves (invoked (run p events)))%nat) as Hrun.
  { induction events as [|e events IH]; intros p Hp; [done|].
    apply IH. by apply onSave_step. }
  apply Hrun. unfold pending, saves. simpl. lia.
Qed.

End MoreSettingsFacts.

Section ShellFacts.

Import Shell.

Lemma toggles_queue s n :
  run s (replicate n ToggleDemo)
  = {| configStatus := configStatus s; showSettings := showSettings s;
       awaiting := awaiting s
                   ++ replicate n (Toggle (negb (demo_mode (configStatus s))));
       invoked := invoked s
                  ++ replicate n (set_demo_mode (negb (demo_mode (configStatus s)))) |}.
Proof.
  revert s. induction n as [|n IH]; intros s; simpl.
  - rewrite !app_nil_r. by destruct s.
  - unfold run in IH. rewrite IH. simpl. by rewrite <- !app_assoc.
Qed.

Lemma toggles_resolve s n m result :
  awaiting s = replicate (S n) (Toggle m) →
  let s' := run s (replicate (S n) (Resolves 0 result)) in
  configStatus s' = withDemoMode m (configStatus s)
  ∧ awaiting s' = [] ∧ invoked s' = invoked s
  ∧ showSettings s' = showSettings s.
Proof.
  revert s. induction n as [|n IH]; intros s Haw s'; subst s'; unfold run in *.
  - cbn [replicate foldl step]. rewrite Haw. cbn [lookup list_lookup replicate].
    unfold resolved, settle, setConfigStatus. cbn. by rewrite Haw.
  - cbn [replicate foldl] in *. set (s1 := step s (Resolves 0 result)).
    assert (awaiting s1 = Toggle m :: replicate n (Toggle m)
            ∧ configStatus s1 = withDemoMode m (configStatus s)
            ∧ invoked s1 = invoked s
            ∧ showSettings s1 = showSettings s) as (Ha & Hc & Hi & Hsh).
    { subst s1. cbn [step]. rewrite Haw. cbn [lookup list_lookup replicate].
      unfold resolved, settle, setConfigStatus. cbn. by rewrite Haw. }
    destruct (IH s1 Ha) as (-> & -> & -> & ->). by rewrite Hc, Hi, Hsh.
Qed.

(** X22. The demo toggle works from the status as rendered, not as it will
    be.  However many times the toggle is clicked before the first
    [set_demo_mode] resolves, every click sends the same value, the negation
    of the mode on screen, and once all have resolved the mode is that
    value: an even number of quick clicks does not bring the mode back.  The
    other fields of the status are kept. *)
Theorem toggle_uses_rendered_status (s : Shell) (n : nat) (result : ConfigStatus) :
  awaiting s = [] →
  let mode := negb (demo_mode (configStatus s)) in
  let s' := run s (replicate (S n) ToggleDemo
                   ++ replicate (S n) (Resolves 0 result)) in
  configStatus s' = withDemoMode mode (configStatus s)
  ∧ demo_mode (configStatus s') = mode
  ∧ invoked s' = invoked s ++ replicate (S n) (set_demo_mode mode)
  ∧ awaiting s' = [].
Proof.
  intros Haw mode s'. subst s'. unfold run. rewrite foldl_app.
  fold (run s (replicate (S n) ToggleDemo)). rewrite toggles_queue, Haw.
  match goal with |- context [foldl step ?s0 _] => set (s1 := s0) end.
  destruct (toggles_resolve s1 n mode result) as (H1 & H2 & H3 & _); [done|].
  unfold run in *. rewrite H1, H2, H3. done.
Qed.

End ShellFacts.

(** * The properties at work

    The examples run on [asciiEngine]; every path in them is ASCII. *)

#[local] Existing Instance asciiEngine.

Lemma validateFiles_rules_witness :
  validateFiles [] = failWith EmptyBatch
  ∧ validateFiles (replicate 51 (u16 "a.png")) = failWith (TooManyFiles 50)
  ∧ validateFiles [u16 "/tmp/a.PNG"; u16 "/tmp/malware.exe"; u16 "b.zzz"]
    = failWith (UnsupportedType (u16 "exe") (u16 "malware.exe"))
  ∧ validateFiles [u16 "/tmp/a.PNG"; u16 "Makefile"] = accepted
  ∧ getExtension (u16 "/tmp/archive.tar.GZ") = u16 "gz".
Proof.
  split; [|split; [|split; [|split]]].
  - by apply (validateFiles_rules []).
  - apply (validateFiles_rules (replicate 51 (u16 "a.png"))).
    rewrite length_replicate. lia.
  - etrans.
    { apply (proj1 (proj2 (proj2 (validateFiles_rules _)))
               [u16 "/tmp/a.PNG"] (u16 "/tmp/malware.exe") [u16 "b.zzz"]).
      + reflexivity.
      + simpl. lia.
      + repeat constructor. intros Hbad. apply offender_iff in Hbad.
        by vm_compute in Hbad.
      + apply offender_iff. by vm_compute. }
    by vm_compute.
  - apply (proj1 (proj2 (proj2 (proj2 (validateFiles_rules _))))).
    + done.
    + simpl. lia.
    + repeat constructor; intros Hbad; apply offender_iff in Hbad;
        by vm_compute in Hbad.
  - etrans.
    { apply (proj2 (proj2 (proj2 (proj2 (proj2 (validateFiles_rules []))))
                      (u16 "/tmp/archive.tar.GZ"))
               (u16 "/tmp/archive.tar") (u16 "GZ")); [by vm_compute|].
      by apply (bool_decide_unpack (dot ∉ u16 "GZ")). }
    by vm_compute.
Defined.

Lemma single_flight_witness :
  let a := run firstLaunch [DragDrop [u16 "photo.jpg"] 1000] in
  let a' := step a (DragDrop [u16 "other.png"] 2000) in
  isProcessing a = true ∧ awaiting a' = awaiting a ∧ invoked a' = invoked a.
Proof.
  intros a a'. split; [by vm_compute|].
  destruct (single_flight NoItem [DragDrop [u16 "photo.jpg"] 1000])
    as (_ & Hdiscard & _).
  assert (isProcessing a = true) as Hp by (by vm_compute).
  destruct (Hdiscard [u16 "other.png"] 2000 (or_intror Hp)) as (_ & Haw & Hinv).
  split; [exact Haw|exact Hinv].
Defined.

Lemma guard_released_witness :
  let a := step firstLaunch (DragDrop [u16 "photo.jpg"] 1000) in
  isProcessing a = true
  ∧ isProcessing (step a (UploadResolves 0 sampleResult 5000 5000)) = false
  ∧ isProcessing (step a (UploadRejects 0 (u16 "Upload failed"))) = false.
Proof.
  intros a. split.
  - apply (proj1 (guard_released NoItem []) [u16 "photo.jpg"] 1000).
    split; [by vm_compute|done|done|by vm_compute].
  - assert (awaiting a !! 0%nat = Some [u16 "photo.jpg"]) as Hi by (by vm_compute).
    exact (proj1 (proj2 (guard_released NoItem [DragDrop [u16 "photo.jpg"] 1000]))
             0%nat [u16 "photo.jpg"] sampleResult 5000 5000 (u16 "Upload failed") Hi).
Defined.

Lemma drag_gated_on_flag_witness :
  let a := run firstLaunch [DragDrop [u16 "photo.jpg"] 1000] in
  let a1 := step a (UploadResolves 0 sampleResult 5000 5000) in
  step a DragOverEvent = a
  ∧ state a1 = Success
  ∧ state (step a1 DragOverEvent) = DragOver
  ∧ state (step a1 DragLeaveEvent) = Idle
  ∧ {| callback := ResetSession; delay := 2000 |} ∈ timers (step a1 DragOverEvent)
  ∧ isProcessing a1 = false.
Proof.
  intros a a1. split.
  - apply (proj1 (proj2 (drag_gated_on_flag a))). by vm_compute.
  - assert (awaiting a !! 0%nat = Some [u16 "photo.jpg"]) as Hi by (by vm_compute).
    destruct (proj1 (proj2 (proj2 (drag_gated_on_flag a))) a1 Success
                {| callback := ResetSession; delay := 2000 |}
                (shows_success a 0%nat [u16 "photo.jpg"] sampleResult 5000 5000 Hi))
      as (_ & H1 & _ & H2 & H3 & H4 & _).
    split; [exact H1|]. split; [exact H2|]. split; [exact H3|].
    split; [exact H4|].
    assert (state (run (mount NoItem)
                     [DragDrop [u16 "photo.jpg"] 1000;
                      UploadResolves 0 sampleResult 5000 5000]) = Success)
      as Hshown by (by vm_compute).
    exact (proj1 (proj2 (proj2 (proj2 (drag_gated_on_flag a))) NoItem
                    [DragDrop [u16 "photo.jpg"] 1000;
                     UploadResolves 0 sampleResult 5000 5000]
                    (or_intror (or_introl Hshown)))).
Defined.

(** C10, as the claim words it, fails.  A batch is refused at 1000 and its
    reset timer scheduled; a second batch is accepted at 2000; the timer of
    the first then fires and puts the display back to idle while the upload
    is still in flight.  The display is not "processing", yet a drag-over
    leaves it idle, for the guard flag is set. *)
Lemma drag_follows_display_counterexample :
  let a := run firstLaunch
             [DragDrop [u16 "old.exe"] 1000;
              DragDrop [u16 "photo.jpg"] 2000;
              TimerFires 0] in
  state a = Idle
  ∧ isProcessing a = true
  ∧ awaiting a = [[u16 "photo.jpg"]]
  ∧ step a DragOverEvent = a
  ∧ ¬ DragFollowsDisplay.
Proof.
  intros a.
  assert (state a = Idle ∧ isProcessing a = true
          ∧ awaiting a = [[u16 "photo.jpg"]] ∧ step a DragOverEvent = a)
    as (Hidle & Hflag & Hwait & Hstutter) by (by vm_compute).
  split; [exact Hidle|]. split; [exact Hflag|]. split; [exact Hwait|].
  split; [exact Hstutter|].
  intros Hclaim.
  assert (state a ≠ Processing) as Hne by (rewrite Hidle; discriminate).
  destruct (Hclaim _ Hne) as [Hdrag _].
  change (state (step a DragOverEvent) = DragOver) in Hdrag.
  rewrite Hstutter, Hidle in Hdrag. discriminate.
Qed.

Lemma debounce_witness :
  let a := step firstLaunch (DragDrop [u16 "photo.jpg"] 1000) in
  let a1 := run a [DragOverEvent; UploadRejects 0 (u16 "offline")] in
  lastDropTime a = 1000
  ∧ step a1 (DragDrop [u16 "other.png"] 1299) = a1.
Proof.
  intros a a1.
  destruct (proj2 (debounce firstLaunch [u16 "photo.jpg"] 1000)) as [Hstamp Hnext];
    [done|by vm_compute|].
  split; [done|].
  apply (Hnext [DragOverEvent; UploadRejects 0 (u16 "offline")]).
  - by repeat constructor.
  - by vm_compute.
Defined.

(** C3, as the specification words it, fails.  A first drop at 1000000 is
    refused by the validator; a second, 200 ms later, is debounced; a third,
    200 ms after the second, is 400 ms after the last drop that got past the
    debounce, so it goes to the controller, which starts an upload.  Of the
    second and third drops, 200 ms apart, it is the later one that is
    forwarded. *)
Lemma debounce_counterexample :
  let a0 := run firstLaunch [DragDrop [u16 "old.exe"] 1000000] in
  let a1 := step a0 (DragDrop [u16 "first.png"] 1000200) in
  let a2 := step a1 (DragDrop [u16 "second.png"] 1000400) in
  1000400 - 1000200 < DEBOUNCE_MS
  ∧ a1 = a0
  ∧ state a2 = Processing
  ∧ invoked a2 = [process_and_upload [u16 "second.png"]]
  ∧ ¬ SecondOfTwoDiscarded.
Proof.
  intros a0 a1 a2.
  assert (a2 ≠ a1) as Hne by (by vm_compute).
  split; [done|]. split; [by vm_compute|]. split; [by vm_compute|].
  split; [by vm_compute|].
  intros Hclaim. apply Hne.
  assert (0 ≤ 1000400 - 1000200 < DEBOUNCE_MS) as Hgap
    by (unfold DEBOUNCE_MS; lia).
  exact (Hclaim [DragDrop [u16 "old.exe"] 1000000]
           [u16 "first.png"] 1000200 [u16 "second.png"] 1000400
           ltac:(discriminate) ltac:(discriminate) Hgap).
Qed.

Lemma history_bounded_witness :
  let a := run firstLaunch [DragDrop [u16 "photo.jpg"] 1000] in
  let record := newUpload [u16 "photo.jpg"] sampleResult 5000 5001 in
  let eleven := sampleItem <$> [1; 2; 3; 4; 5; 6; 7; 8; 9; 10; 11] in
  uploads (step a (UploadResolves 0 sampleResult 5000 5001)) = [record]
  ∧ foldl (λ h r, prepend r h) (uploads a) eleven
    = sampleItem <$> [11; 10; 9; 8; 7; 6; 5; 4; 3; 2].
Proof.
  intros a record eleven.
  destruct (history_bounded [DragDrop [u16 "photo.jpg"] 1000])
    as (_ & _ & Hnew & Hmany).
  split.
  - by destruct (Hnew 0%nat [u16 "photo.jpg"] sampleResult 5000 5001) as [-> _].
  - destruct (Hmany eleven) as [_ Hlast]. destruct Hlast as [-> _]; [|done].
    simpl. lia.
Defined.

Lemma history_loaded_once_witness :
  (∃ a, launch (Renderable (Json [sampleItem 2; sampleItem 1])) = Mounted a
     ∧ uploads a = [sampleItem 2; sampleItem 1])
  ∧ launch (Renderable (BadJson (u16 "{oops"))) = Mounted firstLaunch
  ∧ launch (Renderable (BadJson [])) = Mounted firstLaunch
  ∧ launch (Renderable NoItem) = Mounted firstLaunch
  ∧ withStorage NoItem
      (step (withStorage (BadJson (u16 "{oops"))
                         (mount (Json [sampleItem 2; sampleItem 1])))
            (DeleteClick false (sampleItem 1)))
    = withStorage NoItem
        (step (mount (Json [sampleItem 2; sampleItem 1]))
              (DeleteClick false (sampleItem 1))).
Proof.
  destruct history_loaded_once as (Hlist & Hempty & Honce).
  split.
  { destruct (Hlist [sampleItem 2; sampleItem 1]) as (a & Ha & Hup & _).
    exists a. split; [exact Ha|exact Hup]. }
  split.
  { exact (proj1 (Hempty (BadJson (u16 "{oops"))
                    (or_intror (ex_intro _ (u16 "{oops") eq_refl)))). }
  split.
  { exact (proj1 (Hempty (BadJson []) (or_intror (ex_intro _ [] eq_refl)))). }
  split.
  { exact (proj1 (Hempty NoItem (or_introl eq_refl))). }
  apply Honce. discriminate.
Defined.

(** C9, as the specification words it, fails.  The text [null] is valid
    JSON, so nothing is caught; [setUploads(null)] is followed by a render
    that reads [uploads.length] and throws, and the tree is unmounted: the
    start-up is fatal, not a start with an empty history. *)
Lemma malformed_slot_counterexample :
  malformed (Unrenderable (u16 "null"))
  ∧ launch (Unrenderable (u16 "null")) = RenderThrows (Json [])
  ∧ launch (Unrenderable (u16 "null")) ≠ Mounted firstLaunch
  ∧ ¬ MalformedStartsEmpty.
Proof.
  split; [exact I|]. split; [reflexivity|]. split; [discriminate|].
  intros Hclaim. specialize (Hclaim (Unrenderable (u16 "null")) I).
  discriminate.
Qed.

Lemma deleteUpload_best_effort_witness :
  let a := mount (Json [sampleItem 1; sampleItem 2]) in
  let a' := step a (DeleteClick true (sampleItem 1)) in
  uploads a' = [sampleItem 2]
  ∧ invoked a' = [delete_from_r2 (u16 "notes.txt")]
  ∧ invoked (step a (DeleteClick false (sampleItem 1))) = [].
Proof.
  intros a a'.
  destruct (deleteUpload_best_effort a true (sampleItem 1))
    as (Hup & _ & _ & _ & Hsent & _).
  destruct (deleteUpload_best_effort a false (sampleItem 1))
    as (_ & _ & _ & _ & _ & Hnone & _).
  subst a'. split; [by rewrite Hup|]. split.
  - destruct Hsent as (key & Hkey & -> & _); [done|]. by simplify_eq/=.
  - destruct Hnone as [-> _]; [|done]. by intros [? _].
Defined.

Lemma display_name_witness :
  let one := run firstLaunch
               [DragDrop [u16 "photo.jpg"] 1000;
                UploadResolves 0 sampleResult 5000 5000] in
  let two := run firstLaunch
               [DragDrop [u16 "a.jpg"; u16 "b.png"] 1000;
                UploadResolves 0 sampleResult 5000 5000] in
  let deep := run firstLaunch
                [DragDrop [u16 "/Users/me/Desktop/photo.jpg"] 1000;
                 UploadResolves 0 sampleResult 5000 5000] in
  UploadItem.name <$> uploads one = [u16 "photo.webp"]
  ∧ UploadItem.name <$> uploads two = [u16 "archive.zip"]
  ∧ UploadItem.name <$> uploads deep = [u16 "photo.webp"].
Proof.
  intros one two deep.
  assert (dot ∉ u16 "jpg") as Hdot by by apply (bool_decide_unpack _).
  assert (slash ∉ u16 "jpg") as Hs1 by by apply (bool_decide_unpack _).
  assert (slash ∉ u16 "photo") as Hs2 by by apply (bool_decide_unpack _).
  split; [|split].
  - assert (Accepts firstLaunch [u16 "photo.jpg"] 1000) as Hacc
      by (split; [by vm_compute|done|done|by vm_compute]).
    destruct (display_name NoItem [] [u16 "photo.jpg"] 1000 sampleResult 5000 5000 Hacc)
      as (record & Hup & _ & _ & _ & Hname & _).
    assert (UploadItem.name record = u16 "photo.webp") as Hrecord.
    { etrans; [|by vm_compute].
      apply (Hname (u16 "photo.jpg") (u16 "photo") (u16 "jpg"));
        [done|by vm_compute|done|exact Hdot]. }
    subst one. change (run (mount NoItem) []) with firstLaunch in Hup.
    rewrite Hup. simpl. by rewrite Hrecord.
  - assert (Accepts firstLaunch [u16 "a.jpg"; u16 "b.png"] 1000) as Hacc
      by (split; [by vm_compute|done|done|by vm_compute]).
    destruct (display_name NoItem [] [u16 "a.jpg"; u16 "b.png"] 1000
                sampleResult 5000 5000 Hacc)
      as (record & Hup & _ & _ & Hname & _).
    assert (UploadItem.name record = u16 "archive.zip") as Hrecord.
    { apply Hname. simpl. lia. }
    subst two. change (run (mount NoItem) []) with firstLaunch in Hup.
    rewrite Hup. simpl. by rewrite Hrecord.
  - assert (Accepts firstLaunch [u16 "/Users/me/Desktop/photo.jpg"] 1000) as Hacc
      by (split; [by vm_compute|done|done|by vm_compute]).
    destruct (display_name NoItem [] [u16 "/Users/me/Desktop/photo.jpg"] 1000
                sampleResult 5000 5000 Hacc)
      as (record & Hup & _ & _ & _ & _ & Hname).
    assert (UploadItem.name record = u16 "photo.webp") as Hrecord.
    { etrans; [|by vm_compute].
      apply (Hname (u16 "/Users/me/Desktop") (u16 "photo") (u16 "jpg"));
        [left; by vm_compute|exact Hs2|exact Hs1|done|exact Hdot]. }
    subst deep. change (run (mount NoItem) []) with firstLaunch in Hup.
    rewrite Hup. simpl. by rewrite Hrecord.
Defined.

Lemma credentials_gate_witness :
  let p := Settings.change Settings.BucketName (u16 "other") testedPanel in
  Settings.validated testedPanel = true
  ∧ Settings.validated p = false
  ∧ Settings.refuses p Settings.NotValidated
  ∧ Settings.refuses (Settings.change Settings.SecretKey [] testedPanel)
      Settings.MissingFields.
Proof.
  intros p. split; [by vm_compute|].
  destruct (credentials_gate testedPanel) as (Hreset & _).
  destruct (Hreset Settings.BucketName (u16 "other")) as [Hv _]; [done|done|].
  split; [exact Hv|]. split.
  - assert (∀ f, Settings.getField f p ≠ []) as Hall.
    { intros f. apply (bool_decide_unpack _). by destruct f; vm_compute. }
    exact (proj1 (proj1 (proj2 (proj2 (proj2 (credentials_gate p)))) Hall Hv)).
  - assert (∃ f, Settings.getField f
                   (Settings.change Settings.SecretKey [] testedPanel) = []) as Hex.
    { exists Settings.SecretKey. by vm_compute. }
    exact (proj1 (proj1 (proj2 (proj2 (credentials_gate
             (Settings.change Settings.SecretKey [] testedPanel)))) Hex)).
Defined.

(** C6, as the specification words it, fails on the fifth field.  With the
    form filled in and tested, changing the public URL base leaves the
    validated flag set, and [handleSave] then sends the new, untested base. *)
Lemma edit_public_url_counterexample :
  let p := Settings.change Settings.PublicUrlBase (u16 "https://new.example")
             testedPanel in
  Settings.validated testedPanel = true
  ∧ Settings.publicUrlBase testedPanel = u16 "https://old.example"
  ∧ Settings.validated p = true
  ∧ Settings.invoked (Settings.handleSave p)
    = Settings.invoked p
      ++ [Settings.set_r2_config
            {| Settings.access_key := u16 "AK";
               Settings.secret_key := u16 "SK";
               Settings.bucket_name := u16 "drops";
               Settings.account_id := u16 "acct";
               Settings.public_url_base := u16 "https://new.example" |}]
  ∧ ¬ EditResets.
Proof.
  intros p. repeat split; try by vm_compute.
  intros Hclaim.
  assert (Settings.validated p = false) as Hreset.
  { apply Hclaim; by vm_compute. }
  by vm_compute in Hreset.
Qed.

(** ** Further behaviour, for the record *)

(** A validation that resolves after an edit sets the flag for credentials
    that were never tested: the inputs stay enabled while the test runs. *)
Lemma validation_resolves_after_edit :
  let p := Settings.run Settings.initial
             [Settings.Change Settings.AccountId (u16 "acct");
              Settings.Change Settings.BucketName (u16 "drops");
              Settings.Change Settings.AccessKey (u16 "AK");
              Settings.Change Settings.SecretKey (u16 "SK");
              Settings.ClickTest;
              Settings.Change Settings.SecretKey (u16 "typo");
              Settings.Resolves 0] in
  Settings.validated p = true
  ∧ Settings.secretKey p = u16 "typo"
  ∧ Settings.invoked p
    = [Settings.validate_r2_config
         {| Settings.access_key := u16 "AK";
            Settings.secret_key := u16 "SK";
            Settings.bucket_name := u16 "drops";
            Settings.account_id := u16 "acct";
            Settings.public_url_base := u16 "https://example.com" |}].
Proof. by vm_compute. Qed.

(** ** The further properties at work *)

Lemma validateFiles_app_witness :
  valid (validateFiles [u16 "a.png"; u16 "b.exe"])
  = valid (validateFiles [u16 "a.png"]) && valid (validateFiles [u16 "b.exe"])
  ∧ validateFiles [u16 "b.exe"; u16 "a.png"] = validateFiles [u16 "b.exe"].
Proof.
  split.
  - assert (length ([u16 "a.png"] ++ [u16 "b.exe"]) ≤ 50)%nat as Hlen
      by (simpl; lia).
    exact (proj1 (validateFiles_app [u16 "a.png"] [u16 "b.exe"]
                    ltac:(discriminate) ltac:(discriminate) Hlen)).
  - assert (length ([u16 "b.exe"] ++ [u16 "a.png"]) ≤ 50)%nat as Hlen
      by (simpl; lia).
    assert (valid (validateFiles [u16 "b.exe"]) = false) as Hbad
      by (by vm_compute).
    exact (proj1 (proj2 (validateFiles_app [u16 "b.exe"] [u16 "a.png"]
                           ltac:(discriminate) ltac:(discriminate) Hlen)) Hbad).
Defined.

Lemma getExtension_dotted_directory_witness :
  validateFiles [u16 "/Users/me/my.folder/Makefile"]
  = failWith (UnsupportedType (u16 "folder/makefile") (u16 "Makefile")).
Proof.
  etrans.
  { apply (getExtension_dotted_directory (u16 "/Users/me/my") (u16 "folder")
             (u16 "Makefile")).
    - by apply (bool_decide_unpack (dot ∉ u16 "folder")).
    - by apply (bool_decide_unpack (dot ∉ u16 "Makefile")).
    - apply (bool_decide_unpack _). by vm_compute. }
  by vm_compute.
Defined.

Lemma displayName_no_extension_witness :
  displayName [u16 "/tmp/Makefile"] sampleResult = u16 "Makefile.webp".
Proof.
  etrans.
  { apply displayName_no_extension. left.
    apply (bool_decide_unpack _). by vm_compute. }
  by vm_compute.
Defined.

Lemma processing_display_witness :
  let a := run firstLaunch [DragDrop [u16 "/tmp/a.jpg"; u16 "/tmp/b.png"] 1000] in
  statusText a = u16 "Processing 2 files..."
  ∧ currentFileName a = u16 "a.jpg".
Proof.
  intros a.
  assert (state a = Processing) as Hproc by (by vm_compute).
  destruct (processing_display NoItem
              [DragDrop [u16 "/tmp/a.jpg"; u16 "/tmp/b.png"] 1000] Hproc)
    as (paths & Haw & _ & Hst & Hcf).
  assert ([paths] = [[u16 "/tmp/a.jpg"; u16 "/tmp/b.png"]]) as Hpaths.
  { rewrite <- Haw. by vm_compute. }
  injection Hpaths as ->.
  split.
  - etrans; [exact Hst|]. by vm_compute.
  - etrans; [exact Hcf|]. by vm_compute.
Defined.

Lemma outcome_display_self_clears_witness :
  let a := run firstLaunch [DragDrop [u16 "old.exe"] 1000; DragOverEvent;
                            DragDrop [u16 "new.exe"] 2000] in
  state a = Error ∧ ∃ i, state (step a (TimerFires i)) = Idle.
Proof.
  intros a. split; [by vm_compute|].
  assert (state a = Error) as Herr by (by vm_compute).
  destruct (outcome_display_self_clears NoItem
              [DragDrop [u16 "old.exe"] 1000; DragOverEvent;
               DragDrop [u16 "new.exe"] 2000] (or_intror Herr))
    as (i & t & _ & _ & Hidle & _).
  exists i. exact Hidle.
Defined.

Lemma save_button_never_unvalidated_witness :
  Settings.invoked (Settings.handleSave testedPanel)
  = Settings.invoked testedPanel
    ++ [Settings.set_r2_config
          {| Settings.access_key := u16 "AK";
             Settings.secret_key := u16 "SK";
             Settings.bucket_name := u16 "drops";
             Settings.account_id := u16 "acct";
             Settings.public_url_base := u16 "https://old.example" |}].
Proof.
  destruct (save_button_never_unvalidated false testedPanel) as [_ [[_ [f Hf]]|[H _]]].
  - by vm_compute.
  - by destruct f; vm_compute in Hf.
  - etrans; [exact H|]. by vm_compute.
Defined.

Lemma toggle_uses_rendered_status_witness :
  let s := Shell.run Shell.mount
             [Shell.Resolves 0
                {| Shell.is_configured := true; Shell.demo_mode := false;
                   Shell.bucket_name := Some (u16 "drops") |}] in
  let twice := Shell.run s
                 [Shell.ToggleDemo; Shell.ToggleDemo;
                  Shell.Resolves 0 (Shell.configStatus s);
                  Shell.Resolves 0 (Shell.configStatus s)] in
  Shell.demo_mode (Shell.configStatus s) = false
  ∧ Shell.demo_mode (Shell.configStatus twice) = true
  ∧ Shell.invoked twice
    = Shell.invoked s ++ [Shell.set_demo_mode true; Shell.set_demo_mode true].
Proof.
  intros s twice. split; [by vm_compute|].
  destruct (toggle_uses_rendered_status s 1 (Shell.configStatus s))
    as (_ & Hmode & Hsent & _); [by vm_compute|].
  split; [exact Hmode|exact Hsent].
Defined.
